(** * cardapp: the CSV export / import core of [app.js]

    A shallow embedding of [escapeCsvField], [wordsToCsv],
    [parseTwoFieldCsvLine] and [csvToWords], together with the
    ECMAScript string built-ins they call, and the properties of the
    encoder / decoder pair.

    A JavaScript string is a sequence of UTF-16 code units; it is modelled
    as a list of numbers.  Nothing below depends on the code units being
    smaller than 2^16. *)

From Stdlib Require Import String Ascii List NArith Bool Arith Lia.
From Stdlib Require Import DecimalString.
Import ListNotations.

Local Open Scope N_scope.
Local Open Scope list_scope.

(** ** ECMAScript strings and the built-ins used by the CSV helpers *)

Module JS.

Definition jsstring := list N.

(** A string literal of the source (ASCII only). *)
Definition lit (s : string) : jsstring :=
  map N_of_ascii (list_ascii_of_string s).

Definition QUOTE : N := 34.   (* the double-quote character *)
Definition COMMA : N := 44.   (* the comma *)
Definition LF : N := 10.      (* line feed, \n *)
Definition CR : N := 13.      (* carriage return, \r *)

(** [===] on two strings. *)
Fixpoint strEq (a b : jsstring) : bool :=
  match a, b with
  | [], [] => true
  | x :: a', y :: b' => (x =? y) && strEq a' b'
  | _, _ => false
  end.

(** The values a record field may hold when it reaches the escaper. *)
Inductive value :=
| Undefined
| Null
| Str (s : jsstring).

(** [v == null] : true of [null] and of [undefined]. *)
Definition looseNull (v : value) : bool :=
  match v with
  | Str _ => false
  | _ => true
  end.

(** [String(v)]. *)
Definition toStr (v : value) : jsstring :=
  match v with
  | Undefined => lit "undefined"
  | Null => lit "null"
  | Str s => s
  end.

(** Truthiness of a string: the empty string is falsy. *)
Definition truthy (s : jsstring) : bool :=
  match s with
  | [] => false
  | _ :: _ => true
  end.

(** [s.includes(c)] for a one-character pattern. *)
Definition includes (s : jsstring) (c : N) : bool :=
  existsb (N.eqb c) s.

(** [s.replace(/c/g, by)] for a one-character pattern. *)
Definition replaceChar (c : N) (by_ : jsstring) (s : jsstring) : jsstring :=
  flat_map (fun x => if x =? c then by_ else [x]) s.

(** [s.replace(/QQ/g, Q)] with Q the double-quote character: matches are
    found left to right and do not overlap; the replacement text is not
    scanned again. *)
Fixpoint replaceQuotePairs (s : jsstring) : jsstring :=
  match s with
  | [] => []
  | a :: r =>
      match r with
      | b :: r' =>
          if (a =? QUOTE) && (b =? QUOTE)
          then QUOTE :: replaceQuotePairs r'
          else a :: replaceQuotePairs r
      | [] => [a]
      end
  end.

(** WhiteSpace and LineTerminator of ECMAScript, the code units that
    [trim] strips: TAB, LF, VT, FF, CR, SP, NBSP, U+1680,
    U+2000..U+200A, U+2028, U+2029, U+202F, U+205F, U+3000, U+FEFF. *)
Definition isWhiteSpace (c : N) : bool :=
  existsb (N.eqb c)
    [9; 10; 11; 12; 13; 32; 160; 5760; 8232; 8233; 8239; 8287; 12288; 65279]
  || ((8192 <=? c) && (c <=? 8202)).

Fixpoint trimStart (s : jsstring) : jsstring :=
  match s with
  | [] => []
  | c :: r => if isWhiteSpace c then trimStart r else s
  end.

Definition trimEnd (s : jsstring) : jsstring :=
  rev (trimStart (rev s)).

(** [s.trim()]. *)
Definition trim (s : jsstring) : jsstring :=
  trimEnd (trimStart s).

(** [s.toLowerCase()].  ASCII letters are lowered here; the lower-case
    mapping of the code units outside ASCII comes from the Unicode tables
    of the host, the parameter [tbl]. *)
Definition lowerUnit (tbl : N -> jsstring) (c : N) : jsstring :=
  if (65 <=? c) && (c <=? 90) then [c + 32]
  else if c <? 128 then [c]
  else tbl c.

Definition toLowerCase (tbl : N -> jsstring) (s : jsstring) : jsstring :=
  flat_map (lowerUnit tbl) s.

(** [pieces.join(sep)]. *)
Fixpoint join (sep : jsstring) (pieces : list jsstring) : jsstring :=
  match pieces with
  | [] => []
  | p :: rest =>
      match rest with
      | [] => p
      | _ :: _ => p ++ sep ++ join sep rest
      end
  end.

(** [s.split(/\r?\n/)], with [cur] the piece being accumulated: the
    pattern matches at the leftmost position, so a carriage return is part
    of the separator exactly when a line feed follows it at once. *)
Fixpoint splitLinesFrom (cur : jsstring) (s : jsstring) : list jsstring :=
  match s with
  | [] => [cur]
  | c :: r =>
      if c =? LF then cur :: splitLinesFrom [] r
      else
        match r with
        | c' :: r' =>
            if (c =? CR) && (c' =? LF)
            then cur :: splitLinesFrom [] r'
            else splitLinesFrom (cur ++ [c]) r
        | [] => splitLinesFrom (cur ++ [c]) r
        end
  end.

Definition splitLines (s : jsstring) : list jsstring :=
  splitLinesFrom [] s.

(** [array.filter(Boolean)] on an array of objects and [null]s. *)
Fixpoint filterBoolean {A : Type} (l : list (option A)) : list A :=
  match l with
  | [] => []
  | Some x :: r => x :: filterBoolean r
  | None :: r => filterBoolean r
  end.

End JS.

Import JS.

(** ** What the browser supplies

    [caseTable] is the Unicode lower-case mapping of the non-ASCII code
    units; [randomUUID k] and [isoNow k] are the results of the [k]-th call
    of [crypto.randomUUID()] and of [new Date().toISOString()] made during
    one import. *)

Record Host := {
  caseTable : N -> jsstring;
  randomUUID : nat -> jsstring;
  isoNow : nat -> jsstring
}.

(** ** The data model *)

(** What [wordsToCsv] reads of an entry of the [words] array. *)
Record Entry := {
  entry_word : value;
  entry_definition : value
}.

(** The object returned by [parseTwoFieldCsvLine]. *)
Record Parsed := {
  parsed_word : jsstring;
  parsed_definition : jsstring
}.

(** A word object as [csvToWords] builds it. *)
Record Word := {
  id : jsstring;
  word : jsstring;
  definition : jsstring;
  createdAt : jsstring
}.

(** The Record of the specification: the pair (word, definition). *)
Definition recordOf (w : Word) : jsstring * jsstring :=
  (word w, definition w).

Definition entryOf (r : jsstring * jsstring) : Entry :=
  {| entry_word := Str (fst r); entry_definition := Str (snd r) |}.

(** ** The encoder *)

Definition escapeCsvField (field : value) : jsstring :=
  let field := if looseNull field then Str [] else field in
  let field := toStr field in
  let needsQuotes :=
    includes field COMMA || includes field QUOTE
    || includes field LF || includes field CR in
  let escapedField := replaceChar QUOTE [QUOTE; QUOTE] field in
  if needsQuotes then [QUOTE] ++ escapedField ++ [QUOTE] else escapedField.

Definition header : jsstring := lit "word,definition".

Definition entryLine (entry : Entry) : jsstring :=
  let word := escapeCsvField (entry_word entry) in
  let definition := escapeCsvField (entry_definition entry) in
  word ++ [COMMA] ++ definition.

Definition wordsToCsv (wordsArray : list Entry) : jsstring :=
  let lines := map entryLine wordsArray in
  join [LF] (header :: lines).

(** ** The line tokenizer *)

(** The three variables the scanning loop updates. *)
Record Scan := {
  fields : list jsstring;
  currentField : jsstring;
  inQuote : bool
}.

Definition scanStart : Scan :=
  {| fields := []; currentField := []; inQuote := false |}.

Definition isChar (c : N) (o : option N) : bool :=
  match o with
  | Some x => x =? c
  | None => false
  end.

(** The [for] loop of [parseTwoFieldCsvLine] over [trimmedLine], from index
    [i].  [nth_error] is indexing: [None] is [undefined], which for
    [trimmedLine[i]] is the exit test [i < trimmedLine.length] failing.
    Every iteration advances [i], so [length trimmedLine] iterations are
    enough ([scanLoop_tokenize] below). *)
Fixpoint scanLoop (fuel : nat) (trimmedLine : jsstring) (i : nat) (st : Scan)
  : Scan :=
  match fuel with
  | O => st
  | S fuel' =>
      match nth_error trimmedLine i with
      | None => st
      | Some char =>
          let nextChar := nth_error trimmedLine (i + 1) in
          if char =? QUOTE then
            if inQuote st && isChar QUOTE nextChar then
              scanLoop fuel' trimmedLine (S (S i))
                {| fields := fields st;
                   currentField := currentField st ++ [QUOTE];
                   inQuote := inQuote st |}
            else
              scanLoop fuel' trimmedLine (S i)
                {| fields := fields st;
                   currentField := currentField st;
                   inQuote := negb (inQuote st) |}
          else if (char =? COMMA) && negb (inQuote st) then
            scanLoop fuel' trimmedLine (S i)
              {| fields := fields st ++ [currentField st];
                 currentField := [];
                 inQuote := inQuote st |}
          else
            scanLoop fuel' trimmedLine (S i)
              {| fields := fields st;
                 currentField := currentField st ++ [char];
                 inQuote := inQuote st |}
      end
  end.

(** The fields after the loop and the final [fields.push(currentField)]. *)
Definition scannedFields (trimmedLine : jsstring) : list jsstring :=
  let st := scanLoop (length trimmedLine) trimmedLine 0 scanStart in
  fields st ++ [currentField st].

(** [fields[k] ? fields[k].replace(/QQ/g, Q).trim() : ''], with Q the
    double-quote character. *)
Definition fieldText (fs : list jsstring) (k : nat) : jsstring :=
  match nth_error fs k with
  | Some f => if truthy f then trim (replaceQuotePairs f) else []
  | None => []
  end.

Definition parseTwoFieldCsvLine (line : jsstring) : option Parsed :=
  let trimmedLine := trim line in
  if (length trimmedLine =? 0)%nat then None
  else
    let fs := scannedFields trimmedLine in
    Some {| parsed_word := fieldText fs 0;
            parsed_definition := fieldText fs 1 |}.

(** ** The decoder *)

Definition notBlank (line : jsstring) : bool :=
  negb (strEq (trim line) []).

Definition isHeaderLine (h : Host) (line : jsstring) : bool :=
  strEq (trim (toLowerCase (caseTable h) line)) (lit "word,definition").

(** [lines.shift()] when the first line is the header. *)
Definition dropHeader (h : Host) (lines : list jsstring) : list jsstring :=
  match lines with
  | first :: rest => if isHeaderLine h first then rest else lines
  | [] => lines
  end.

(** The callback of [lines.map], threaded with the number [k] of objects
    built so far. *)
Fixpoint importLines (h : Host) (k : nat) (lines : list jsstring)
  : list (option Word) :=
  match lines with
  | [] => []
  | line :: rest =>
      match parseTwoFieldCsvLine line with
      | Some parsed =>
          Some {| id := randomUUID h k;
                  word := parsed_word parsed;
                  definition := parsed_definition parsed;
                  createdAt := isoNow h k |}
          :: importLines h (S k) rest
      | None => None :: importLines h k rest
      end
  end.

(** The lines [csvToWords] turns into word objects. *)
Definition dataLines (h : Host) (csvString : jsstring) : list jsstring :=
  dropHeader h (filter notBlank (splitLines csvString)).

Definition csvToWords (h : Host) (csvString : jsstring) : list Word :=
  filterBoolean (importLines h 0 (dataLines h csvString)).

(** The Records of a decoded blob. *)
Definition decode (h : Host) (csvString : jsstring) : list (jsstring * jsstring) :=
  map recordOf (csvToWords h csvString).

Definition encode (records : list (jsstring * jsstring)) : jsstring :=
  wordsToCsv (map entryOf records).

(** A host for the examples: no non-ASCII case mapping, fixed identifiers. *)
Definition plainHost : Host :=
  {| caseTable := fun c => [c];
     randomUUID := fun _ => lit "00000000-0000-4000-8000-000000000000";
     isoNow := fun _ => lit "2024-01-01T00:00:00.000Z" |}.

(** ** The tokenizer as the specification words it

    Scan the characters left to right with the quoted-region flag [inq]:
    a double-quote toggles the flag, unless it is immediately followed by
    another double-quote while inside a quoted region, in which case one
    literal double-quote is appended and both characters are consumed; a
    comma outside a quoted region ends the current field; any other
    character is appended; at the end of the line the accumulated field is
    the final field. *)
Fixpoint specTokens (fs : list jsstring) (cur : jsstring) (inq : bool)
  (s : jsstring) : list jsstring :=
  match s with
  | [] => fs ++ [cur]
  | c :: r =>
      if c =? QUOTE then
        match r with
        | c' :: r' =>
            if inq && (c' =? QUOTE)
            then specTokens fs (cur ++ [QUOTE]) inq r'
            else specTokens fs cur (negb inq) r
        | [] => specTokens fs cur (negb inq) r
        end
      else if (c =? COMMA) && negb inq then specTokens (fs ++ [cur]) [] inq r
      else specTokens fs (cur ++ [c]) inq r
  end.

(** ** The notions the properties are stated with *)

Definition allSpace (s : jsstring) : Prop :=
  Forall (fun c => isWhiteSpace c = true) s.

(** The first character, if there is one, is not whitespace. *)
Definition startsClean (s : jsstring) : Prop :=
  match s with
  | [] => True
  | c :: _ => isWhiteSpace c = false
  end.

(** No leading and no trailing whitespace. *)
Definition noOuterSpace (s : jsstring) : Prop :=
  startsClean s /\ startsClean (rev s).

(** The text a field value stands for: an absent or null value is the
    empty text. *)
Definition textOf (v : value) : jsstring :=
  match v with
  | Str s => s
  | Undefined | Null => []
  end.

(** The text contains a comma, a double-quote, a line feed or a carriage
    return. *)
Definition needsQuoting (s : jsstring) : Prop :=
  In COMMA s \/ In QUOTE s \/ In LF s \/ In CR s.

(** [QuotesDoubled s t]: [t] is [s] with every double-quote doubled and
    every other character kept. *)
Inductive QuotesDoubled : jsstring -> jsstring -> Prop :=
| qd_nil : QuotesDoubled [] []
| qd_quote s t :
    QuotesDoubled s t -> QuotesDoubled (QUOTE :: s) (QUOTE :: QUOTE :: t)
| qd_other c s t :
    c <> QUOTE -> QuotesDoubled s t -> QuotesDoubled (c :: s) (c :: t).

Definition endsWith (c : N) (s : jsstring) : Prop :=
  exists r, s = r ++ [c].

(** The Record a non-blank line stands for. *)
Definition lineRecord (line : jsstring) : jsstring * jsstring :=
  let fs := scannedFields (trim line) in
  (fieldText fs 0, fieldText fs 1).

Definition allNotBlank (lines : list jsstring) : Prop :=
  Forall (fun l => notBlank l = true) lines.

(** A physical line: it holds no line feed. *)
Definition noLF (l : jsstring) : Prop := ~ In LF l.

(** A line without the carriage return that ends it, if one does. *)
Fixpoint chomp (l : jsstring) : jsstring :=
  match l with
  | [] => []
  | c :: r =>
      match r with
      | [] => if c =? CR then [] else [c]
      | _ :: _ => c :: chomp r
      end
  end.

(** What [splitLines] makes of lines joined with line feeds: the carriage
    return that ends a line goes with the separator after it. *)
Fixpoint chompInner (lines : list jsstring) : list jsstring :=
  match lines with
  | [] => []
  | l :: rest =>
      match rest with
      | [] => [l]
      | _ :: _ => chomp l :: chompInner rest
      end
  end.

(** Everything [csvToWords] does after the split, on the lines. *)
Definition wordsOfLines (h : Host) (lines : list jsstring) : list Word :=
  filterBoolean (importLines h 0 (dropHeader h (filter notBlank lines))).

(** Two lines with the same trimmed text and the same header test. *)
Definition sameLine (h : Host) (a b : jsstring) : Prop :=
  trim a = trim b /\ isHeaderLine h a = isHeaderLine h b.

(** [pat] occurs in [s] as a run of consecutive characters. *)
Definition occursIn (pat s : jsstring) : Prop :=
  exists a b, s = a ++ pat ++ b.

Definition quotePair : jsstring := [QUOTE; QUOTE].
Definition quoteTriple : jsstring := [QUOTE; QUOTE; QUOTE].

(** A field the decoder gives back as it was: no line feed, no leading or
    trailing whitespace, no two consecutive double-quotes. *)
Definition cleanField (s : jsstring) : Prop :=
  noLF s /\ noOuterSpace s /\ ~ occursIn quotePair s.

Definition cleanRecord (r : jsstring * jsstring) : Prop :=
  cleanField (fst r) /\ cleanField (snd r).

(** What the tokenizer makes of a scanned field: the pairs of double-quotes
    replaced, then the trim. *)
Definition normalField (s : jsstring) : jsstring :=
  trim (replaceQuotePairs s).

(** The physical lines of a text: its pieces between line feeds. *)
Fixpoint physicalLines (s : jsstring) : list jsstring :=
  match s with
  | [] => [[]]
  | c :: r =>
      if c =? LF then [] :: physicalLines r
      else
        match physicalLines r with
        | l :: rest => (c :: l) :: rest
        | [] => [[c]]
        end
  end.

(** A host for the examples whose [k]-th identifier and timestamp are [k]
    marks long, so that no two are the same. *)
Definition numberedHost : Host :=
  {| caseTable := fun c => [c];
     randomUUID := fun k => repeat 120 k;
     isoNow := fun k => repeat 116 k |}.

(** ** The application around the CSV helpers

    The handlers of [app.js] over the state they share: the [words] array,
    [currentRandomWord], the item kept in [localStorage], the values of the
    three inputs and the children of the two containers the handlers
    fill.  What a handler shows to the user ([alert], the file offered for
    download) is its output. *)

(** A child of the list [#word-list]: the item that says the list is
    empty, or the item of an entry, with the text of its [strong], the text
    of its [p] and the [data-id] of its delete button. *)
Inductive ListNode :=
| EmptyMessage
| WordItem (wordText definitionText dataId : jsstring).

(** A child of [#random-word-display-container]: the paragraph that says
    there is no word, the [h2] with a word, the reveal button, the
    paragraph with a definition. *)
Inductive RandomNode :=
| NoWordsMessage
| WordHeading (text : jsstring)
| RevealButton
| DefinitionText (text : jsstring).

Inductive Output :=
| Alert (message : jsstring)
| Download (fileName content : jsstring).

(** What was clicked inside the list: a delete button, with its [data-id],
    or anything else. *)
Inductive Target :=
| DeleteBtn (dataId : jsstring)
| OtherElement.

(** [storedWords] is the item under [STORAGE_KEY]: [None] when there is
    none, [Some ws] for the JSON text of the array [ws], which
    [JSON.parse] reads back as [ws].  Writing the item is taken to
    succeed. *)
Record App := {
  words : list Word;
  currentRandomWord : option Word;
  storedWords : option (list Word);
  wordInputValue : jsstring;
  definitionInputValue : jsstring;
  importFileValue : jsstring;
  wordListNodes : list ListNode;
  randomNodes : list RandomNode
}.

Definition withWords (ws : list Word) (st : App) : App :=
  {| words := ws;
     currentRandomWord := currentRandomWord st;
     storedWords := storedWords st;
     wordInputValue := wordInputValue st;
     definitionInputValue := definitionInputValue st;
     importFileValue := importFileValue st;
     wordListNodes := wordListNodes st;
     randomNodes := randomNodes st |}.

Definition withCurrentRandomWord (c : option Word) (st : App) : App :=
  {| words := words st;
     currentRandomWord := c;
     storedWords := storedWords st;
     wordInputValue := wordInputValue st;
     definitionInputValue := definitionInputValue st;
     importFileValue := importFileValue st;
     wordListNodes := wordListNodes st;
     randomNodes := randomNodes st |}.

Definition withStoredWords (s : option (list Word)) (st : App) : App :=
  {| words := words st;
     currentRandomWord := currentRandomWord st;
     storedWords := s;
     wordInputValue := wordInputValue st;
     definitionInputValue := definitionInputValue st;
     importFileValue := importFileValue st;
     wordListNodes := wordListNodes st;
     randomNodes := randomNodes st |}.

Definition withInputs (w d : jsstring) (st : App) : App :=
  {| words := words st;
     currentRandomWord := currentRandomWord st;
     storedWords := storedWords st;
     wordInputValue := w;
     definitionInputValue := d;
     importFileValue := importFileValue st;
     wordListNodes := wordListNodes st;
     randomNodes := randomNodes st |}.

Definition withImportFileValue (v : jsstring) (st : App) : App :=
  {| words := words st;
     currentRandomWord := currentRandomWord st;
     storedWords := storedWords st;
     wordInputValue := wordInputValue st;
     definitionInputValue := definitionInputValue st;
     importFileValue := v;
     wordListNodes := wordListNodes st;
     randomNodes := randomNodes st |}.

Definition withWordListNodes (l : list ListNode) (st : App) : App :=
  {| words := words st;
     currentRandomWord := currentRandomWord st;
     storedWords := storedWords st;
     wordInputValue := wordInputValue st;
     definitionInputValue := definitionInputValue st;
     importFileValue := importFileValue st;
     wordListNodes := l;
     randomNodes := randomNodes st |}.

Definition withRandomNodes (l : list RandomNode) (st : App) : App :=
  {| words := words st;
     currentRandomWord := currentRandomWord st;
     storedWords := storedWords st;
     wordInputValue := wordInputValue st;
     definitionInputValue := definitionInputValue st;
     importFileValue := importFileValue st;
     wordListNodes := wordListNodes st;
     randomNodes := l |}.

(** The [li] that [renderWords] builds for an entry. *)
Definition renderItem (entry : Word) : ListNode :=
  WordItem (word entry) (definition entry) (id entry).

Definition renderWords (st : App) : App :=
  let st := withWordListNodes [] st in
  let st := withRandomNodes [] st in
  let st := withCurrentRandomWord None st in
  if (length (words st) =? 0)%nat
  then withWordListNodes (wordListNodes st ++ [EmptyMessage]) st
  else withWordListNodes (wordListNodes st ++ map renderItem (words st)) st.

Definition saveWords (st : App) : App :=
  withStoredWords (Some (words st)) st.

Definition loadWords (st : App) : App :=
  match storedWords st with
  | Some ws => withWords ws st
  | None => st
  end.

(** The state when the listeners are in place: [loadWords()], then
    [renderWords()], with [stored] what [localStorage] held. *)
Definition startApp (stored : option (list Word)) : App :=
  renderWords
    (loadWords {| words := [];
                  currentRandomWord := None;
                  storedWords := stored;
                  wordInputValue := [];
                  definitionInputValue := [];
                  importFileValue := [];
                  wordListNodes := [];
                  randomNodes := [] |}).

(** [handleAddWord]; [randomUUID h 0] and [isoNow h 0] are the one call of
    [crypto.randomUUID] and the one reading of the clock that it makes. *)
Definition handleAddWord (h : Host) (st : App) : App * list Output :=
  let wordText := trim (wordInputValue st) in
  let definitionText := trim (definitionInputValue st) in
  if strEq wordText [] || strEq definitionText [] then
    (st, [Alert (lit "Word and Definition cannot be empty.")])
  else
    let newWord := {| id := randomUUID h 0;
                      word := wordText;
                      definition := definitionText;
                      createdAt := isoNow h 0 |} in
    let st := withWords (newWord :: words st) st in
    let st := saveWords st in
    let st := renderWords st in
    (withInputs [] [] st, []).

Definition handleListClick (target : Target) (st : App) : App :=
  match target with
  | DeleteBtn wordId =>
      let st :=
        withWords (filter (fun w => negb (strEq (id w) wordId)) (words st)) st in
      let st := saveWords st in
      renderWords st
  | OtherElement => st
  end.

(** What [wordsToCsv] reads of a word object. *)
Definition asEntry (w : Word) : Entry :=
  {| entry_word := Str (word w); entry_definition := Str (definition w) |}.

(** [handleExport]; [isoNow h 0] is its one reading of the clock, and
    [slice(0, 10)] keeps the first ten characters. *)
Definition handleExport (h : Host) (st : App) : App * list Output :=
  if (length (words st) =? 0)%nat then
    (st, [Alert (lit "Nothing to export.")])
  else
    let csvString := wordsToCsv (map asEntry (words st)) in
    let date := firstn 10 (isoNow h 0) in
    (st, [Download (lit "my_words_" ++ date ++ lit ".csv") csvString]).

(** The decimal text of a length, as a template string prints it. *)
Definition numberText (n : nat) : jsstring :=
  lit (NilEmpty.string_of_uint (Nat.to_uint n)).

Definition invalidCsvMessage : jsstring :=
  lit "Invalid CSV format. Expected a list of " ++ [QUOTE]
    ++ lit "word,definition" ++ [QUOTE] ++ lit " pairs.".

(** [reader.onload], with [text] the content of the file: the [try] block,
    its [catch] and its [finally].  [csvToWords] returns an array whose
    items all have a [word] and a [definition], so of the three tests of
    the validation only the one on the length can fail. *)
Definition handleImportLoaded (h : Host) (text : jsstring) (st : App)
  : App * list Output :=
  let importedData := csvToWords h text in
  if (length importedData =? 0)%nat then
    (withImportFileValue [] st,
     [Alert (lit "Error importing file: " ++ invalidCsvMessage)])
  else
    let st := withWords importedData st in
    let st := saveWords st in
    let st := renderWords st in
    (withImportFileValue [] st,
     [Alert (lit "Successfully imported " ++ numberText (length importedData)
               ++ lit " words! Existing data has been replaced.")]).

(** [reader.onerror]. *)
Definition handleImportError (st : App) : App * list Output :=
  (withImportFileValue [] st, [Alert (lit "Error reading the file.")]).

(** [handleShowRandom], with [randomIndex] the value of
    [Math.floor(Math.random() * words.length)]; [None] is the TypeError
    of reading [.word] of [undefined]. *)
Definition handleShowRandom (randomIndex : nat) (st : App) : option App :=
  let st := withWordListNodes [] st in
  let st := withRandomNodes [] st in
  if (length (words st) =? 0)%nat then
    Some (withRandomNodes (randomNodes st ++ [NoWordsMessage]) st)
  else
    match nth_error (words st) randomIndex with
    | None => None
    | Some w =>
        let st := withCurrentRandomWord (Some w) st in
        Some (withRandomNodes
                (randomNodes st ++ [WordHeading (word w)] ++ [RevealButton]) st)
    end.

Definition isRevealButton (n : RandomNode) : bool :=
  match n with
  | RevealButton => true
  | _ => false
  end.

(** The click listener of the reveal button; [None] is the TypeError of
    reading [.definition] of [null]. *)
Definition handleReveal (st : App) : option App :=
  match currentRandomWord st with
  | None => None
  | Some w =>
      let st :=
        withRandomNodes (randomNodes st ++ [DefinitionText (definition w)]) st in
      Some (withRandomNodes
              (filter (fun n => negb (isRevealButton n)) (randomNodes st)) st)
  end.

Definition handleListAll (st : App) : App := renderWords st.

(** What can happen once the page is loaded. *)
Inductive Event :=
| Typed (wordValue definitionValue : jsstring)
| SubmitAdd (h : Host)
| ClickList (target : Target)
| ClickExport (h : Host)
| FileLoaded (h : Host) (text : jsstring)
| FileError
| ClickListAll
| ClickRandom (randomIndex : nat)
| ClickReveal.

(** The handler an event runs; [None] when it throws. *)
Definition step (e : Event) (st : App) : option (App * list Output) :=
  match e with
  | Typed w d => Some (withInputs w d st, [])
  | SubmitAdd h => Some (handleAddWord h st)
  | ClickList target => Some (handleListClick target st, [])
  | ClickExport h => Some (handleExport h st)
  | FileLoaded h text => Some (handleImportLoaded h text st)
  | FileError => Some (handleImportError st)
  | ClickListAll => Some (handleListAll st, [])
  | ClickRandom randomIndex =>
      option_map (fun st' => (st', [])) (handleShowRandom randomIndex st)
  | ClickReveal => option_map (fun st' => (st', [])) (handleReveal st)
  end.

(** An event the page can deliver in a state: a delete button or the
    reveal button is clicked only while it is shown, and the random index
    lies below the length of a non-empty list. *)
Definition possible (e : Event) (st : App) : Prop :=
  match e with
  | ClickList (DeleteBtn dataId) =>
      exists t d, In (WordItem t d dataId) (wordListNodes st)
  | ClickRandom randomIndex =>
      words st = [] \/ (randomIndex < length (words st))%nat
  | ClickReveal => In RevealButton (randomNodes st)
  | _ => True
  end.

(** The states the page goes through, started with [stored] in
    [localStorage]. *)
Inductive reachable (stored : option (list Word)) : App -> Prop :=
| reachable_start : reachable stored (startApp stored)
| reachable_step (e : Event) (st st' : App) (out : list Output) :
    reachable stored st -> possible e st -> step e st = Some (st', out) ->
    reachable stored st'.

(** Both texts of a word object are trimmed. *)
Definition trimmedWord (w : Word) : Prop :=
  noOuterSpace (word w) /\ noOuterSpace (definition w).

(** The children [renderWords] gives the list for an array. *)
Definition renderList (ws : list Word) : list ListNode :=
  if (length ws =? 0)%nat then [EmptyMessage] else map renderItem ws.

(** The stored item is the text of the array in memory (or nothing was
    ever stored and the array is empty). *)
Definition storageInSync (st : App) : Prop :=
  storedWords st = Some (words st)
  \/ (storedWords st = None /\ words st = []).

(** The list is either cleared or shows the array in memory. *)
Definition listShowsWords (st : App) : Prop :=
  wordListNodes st = [] \/ wordListNodes st = renderList (words st).

(** While the reveal button is shown, [currentRandomWord] is one of the
    words in memory and the heading shows it. *)
Definition revealIsReady (st : App) : Prop :=
  In RevealButton (randomNodes st) ->
  exists w, currentRandomWord st = Some w
            /\ In w (words st)
            /\ randomNodes st = [WordHeading (word w); RevealButton].

Definition consistent (st : App) : Prop :=
  storageInSync st /\ listShowsWords st /\ revealIsReady st.

(** No line feed and no two consecutive double-quotes in either text. *)
Definition plainWord (w : Word) : Prop :=
  noLF (word w) /\ noLF (definition w)
  /\ ~ occursIn quotePair (word w) /\ ~ occursIn quotePair (definition w).

(** Two states for the examples: a page started with nothing stored where
    the word [cat] was typed and added, and the same page after a click on
    the random-word button. *)
Definition catPage : App :=
  fst (handleAddWord plainHost
         (withInputs (lit " cat ") (lit "a small feline") (startApp None))).

Definition catShown : App :=
  match handleShowRandom 0 catPage with
  | Some st => st
  | None => catPage
  end.

(** An ASCII letter in lower case, any other character as it is. *)
Definition asciiLower (c : N) : N :=
  if (65 <=? c) && (c <=? 90) then c + 32 else c.

(** The six whitespace characters of ASCII. *)
Definition asciiSpace (c : N) : Prop :=
  c = 9 \/ c = 10 \/ c = 11 \/ c = 12 \/ c = 13 \/ c = 32.

(** The test [needsQuotes] of [escapeCsvField]. *)
Definition needsQuotes (s : jsstring) : bool :=
  includes s COMMA || includes s QUOTE || includes s LF || includes s CR.

(** What the scan finds of an exported word and of an exported definition:
    a text that was quoted as it was, a text written bare without the
    whitespace at the end of the line it touches. *)
Definition scannedWord (w : jsstring) : jsstring :=
  if needsQuotes w then w else trimStart w.

Definition scannedDefinition (d : jsstring) : jsstring :=
  if needsQuotes d then d else trimEnd d.

(** A page started with nothing stored into which a file of three lines
    was imported, the three words getting three different identifiers. *)
Definition threeWords : App :=
  fst (handleImportLoaded numberedHost
         (lit "cat,a small feline" ++ [LF] ++ lit "dog,barks" ++ [LF]
            ++ lit "owl,hoots")
         (startApp None)).

(** ** The file between an export and an import

    [new Blob([s])] holds the UTF-8 bytes of [s] once every surrogate
    code unit without its partner is replaced by U+FFFD, and
    [FileReader.readAsText] decodes these bytes, dropping a byte order mark
    at the start. *)

Definition isHighSurrogate (c : N) : bool := (55296 <=? c) && (c <=? 56319).

Definition isLowSurrogate (c : N) : bool := (56320 <=? c) && (c <=? 57343).

Fixpoint toUSVString (s : jsstring) : jsstring :=
  match s with
  | [] => []
  | c :: r =>
      if isHighSurrogate c then
        match r with
        | d :: r' =>
            if isLowSurrogate d then c :: d :: toUSVString r'
            else 65533 :: toUSVString r
        | [] => [65533]
        end
      else if isLowSurrogate c then 65533 :: toUSVString r
      else c :: toUSVString r
  end.

Definition stripBOM (s : jsstring) : jsstring :=
  match s with
  | c :: r => if c =? 65279 then r else s
  | [] => []
  end.

(** The text an import reads from the file an export wrote for [s]. *)
Definition fileText (s : jsstring) : jsstring :=
  stripBOM (toUSVString s).

(** Every surrogate code unit of the text has its partner. *)
Definition wellFormed (s : jsstring) : Prop := toUSVString s = s.

Definition wellFormedWord (w : Word) : Prop :=
  wellFormed (word w) /\ wellFormed (definition w).

(** A page started with nothing stored where a word made of one surrogate
    pair was added, with a definition that holds a comma. *)
Definition smilePage : App :=
  fst (handleAddWord plainHost
         (withInputs [55357; 56832] (lit "a grin, a smile") (startApp None))).

(** * Properties *)

(** ** Strings *)

Lemma strEq_true_iff (a b : jsstring) : strEq a b = true <-> a = b.
Proof.
  revert b; induction a as [|x a IH]; intros [|y b]; simpl;
    try (split; [discriminate | congruence]); try tauto.
  rewrite andb_true_iff, N.eqb_eq, IH.
  split; [intros [-> ->]; reflexivity | intros E; inversion E; auto].
Qed.

Lemma strEq_refl (a : jsstring) : strEq a a = true.
Proof. apply strEq_true_iff; reflexivity. Qed.

Lemma includes_false_iff (s : jsstring) (c : N) :
  includes s c = false <-> ~ In c s.
Proof.
  unfold includes. split.
  - intros E HIn.
    assert (existsb (N.eqb c) s = true)
      by (apply existsb_exists; exists c; split; [assumption | apply N.eqb_refl]).
    congruence.
  - intros HnIn. destruct (existsb (N.eqb c) s) eqn:E; [|reflexivity].
    apply existsb_exists in E. destruct E as [x [Hx E]].
    apply N.eqb_eq in E. subst x. contradiction.
Qed.

Lemma includes_true_iff (s : jsstring) (c : N) :
  includes s c = true <-> In c s.
Proof.
  unfold includes. rewrite existsb_exists. split.
  - intros [x [Hx E]]. apply N.eqb_eq in E. subst; assumption.
  - intros H. exists c. split; [assumption | apply N.eqb_refl].
Qed.

(** ** The loop of the tokenizer computes the specified scan *)

Lemma nth_error_at_length {A : Type} (pre : list A) (c : A) (r : list A) :
  nth_error (pre ++ c :: r) (length pre) = Some c.
Proof.
  rewrite nth_error_app2 by lia. rewrite Nat.sub_diag. reflexivity.
Qed.

Lemma nth_error_after_length {A : Type} (pre : list A) (c : A) (r : list A) :
  nth_error (pre ++ c :: r) (length pre + 1) = nth_error r 0.
Proof.
  rewrite nth_error_app2 by lia.
  replace (length pre + 1 - length pre)%nat with 1%nat by lia. reflexivity.
Qed.

Lemma scanLoop_shift (fuel : nat) (pre : jsstring) (c : N) (r : jsstring)
  (st : Scan) :
  scanLoop fuel (pre ++ c :: r) (S (length pre)) st
  = scanLoop fuel ((pre ++ [c]) ++ r) (length (pre ++ [c])) st.
Proof.
  rewrite <- app_assoc. simpl. rewrite length_app. simpl.
  rewrite Nat.add_1_r. reflexivity.
Qed.

Lemma scanLoop_tokenize (fuel : nat) :
  forall (pre rest : jsstring) (st : Scan),
    (length rest <= fuel)%nat ->
    fields (scanLoop fuel (pre ++ rest) (length pre) st)
      ++ [currentField (scanLoop fuel (pre ++ rest) (length pre) st)]
    = specTokens (fields st) (currentField st) (inQuote st) rest.
Proof.
  induction fuel as [|fuel IH]; intros pre rest st Hlen.
  - destruct rest; [reflexivity | simpl in Hlen; lia].
  - destruct rest as [|c r].
    + simpl. rewrite app_nil_r.
      assert (E : nth_error pre (length pre) = None)
        by (apply nth_error_None; lia).
      rewrite E. reflexivity.
    + cbn [scanLoop specTokens].
      rewrite nth_error_at_length, nth_error_after_length.
      simpl in Hlen.
      destruct (c =? QUOTE) eqn:Eq.
      * destruct r as [|c' r'].
        -- cbn [nth_error isChar]. rewrite andb_false_r.
           rewrite scanLoop_shift. rewrite IH by (simpl; lia). reflexivity.
        -- cbn [nth_error isChar].
           destruct (inQuote st && (c' =? QUOTE)) eqn:E2.
           ++ replace (pre ++ c :: c' :: r') with ((pre ++ [c; c']) ++ r')
                by (rewrite <- app_assoc; reflexivity).
              replace (S (S (length pre))) with (length (pre ++ [c; c']))
                by (rewrite length_app; simpl; lia).
              rewrite IH by (simpl in *; lia). reflexivity.
           ++ rewrite scanLoop_shift. rewrite IH by (simpl in *; lia). reflexivity.
      * destruct ((c =? COMMA) && negb (inQuote st)) eqn:E2;
          rewrite scanLoop_shift; rewrite IH by (simpl in *; lia); reflexivity.
Qed.

Lemma scannedFields_specTokens (t : jsstring) :
  scannedFields t = specTokens [] [] false t.
Proof.
  unfold scannedFields.
  apply (scanLoop_tokenize (length t) [] t scanStart). lia.
Qed.

(** ** Whitespace and [trim] *)

Lemma trimStart_split (s : jsstring) :
  exists ws, s = ws ++ trimStart s /\ allSpace ws.
Proof.
  induction s as [|c s [ws [E H]]]; simpl.
  - exists []. split; [reflexivity | constructor].
  - destruct (isWhiteSpace c) eqn:Ec.
    + exists (c :: ws). split; [simpl; congruence | constructor; assumption].
    + exists []. split; [reflexivity | constructor].
Qed.

Lemma trimStart_startsClean (s : jsstring) : startsClean (trimStart s).
Proof.
  induction s as [|c s IH]; simpl; [exact I|].
  destruct (isWhiteSpace c) eqn:Ec; [assumption | simpl; assumption].
Qed.

Lemma trimStart_clean (s : jsstring) : startsClean s -> trimStart s = s.
Proof.
  destruct s as [|c s]; simpl; [reflexivity|]. intros ->. reflexivity.
Qed.

Lemma trimStart_app (a b : jsstring) :
  trimStart (a ++ b)
  = if truthy (trimStart a) then trimStart a ++ b else trimStart b.
Proof.
  induction a as [|c a IH]; simpl; [reflexivity|].
  destruct (isWhiteSpace c); [assumption | reflexivity].
Qed.

Lemma trimEnd_split (s : jsstring) :
  exists ws, s = trimEnd s ++ ws /\ allSpace ws.
Proof.
  unfold trimEnd. destruct (trimStart_split (rev s)) as [ws [E H]].
  exists (rev ws). split.
  - rewrite <- rev_app_distr, <- E, rev_involutive. reflexivity.
  - apply Forall_rev. assumption.
Qed.

Lemma trimEnd_snoc_space (s : jsstring) (c : N) :
  isWhiteSpace c = true -> trimEnd (s ++ [c]) = trimEnd s.
Proof.
  intros Hc. unfold trimEnd. rewrite rev_app_distr. simpl.
  rewrite Hc. reflexivity.
Qed.

Lemma trim_split (s : jsstring) :
  exists w1 w2, s = w1 ++ trim s ++ w2 /\ allSpace w1 /\ allSpace w2.
Proof.
  destruct (trimStart_split s) as [w1 [E1 H1]].
  destruct (trimEnd_split (trimStart s)) as [w2 [E2 H2]].
  exists w1, w2. unfold trim. rewrite <- E2. auto.
Qed.

Lemma startsClean_prefix (a b : jsstring) :
  startsClean (a ++ b) -> a <> [] -> startsClean a.
Proof.
  destruct a as [|c a]; [congruence | simpl; auto].
Qed.

Lemma trim_noOuterSpace (s : jsstring) : noOuterSpace (trim s).
Proof.
  unfold noOuterSpace, trim. split.
  - destruct (trimEnd_split (trimStart s)) as [ws [E _]].
    destruct (trimEnd (trimStart s)) as [|c r] eqn:Et; [exact I|].
    pose proof (trimStart_startsClean s) as Hc. rewrite E in Hc. exact Hc.
  - unfold trimEnd. rewrite rev_involutive. apply trimStart_startsClean.
Qed.

Lemma trim_fixed (s : jsstring) : noOuterSpace s -> trim s = s.
Proof.
  intros [H1 H2]. unfold trim, trimEnd.
  rewrite (trimStart_clean s H1), (trimStart_clean (rev s) H2).
  apply rev_involutive.
Qed.

Lemma trim_snoc_space (s : jsstring) (c : N) :
  isWhiteSpace c = true -> trim (s ++ [c]) = trim s.
Proof.
  intros Hc. unfold trim. rewrite trimStart_app.
  destruct (trimStart s) as [|x r] eqn:E; simpl truthy; cbv iota.
  - simpl. rewrite Hc. reflexivity.
  - apply trimEnd_snoc_space. assumption.
Qed.

Lemma noOuterSpace_nil : noOuterSpace [].
Proof. split; exact I. Qed.

(** The reading of [noOuterSpace] on the first and on the last character. *)
Lemma noOuterSpace_ends (s : jsstring) :
  noOuterSpace s <->
  (forall c r, s = c :: r -> isWhiteSpace c = false)
  /\ (forall r c, s = r ++ [c] -> isWhiteSpace c = false).
Proof.
  unfold noOuterSpace. split.
  - intros [H1 H2]. split.
    + intros c r ->. exact H1.
    + intros r c ->. rewrite rev_app_distr in H2. exact H2.
  - intros [H1 H2]. split.
    + destruct s as [|c r]; [exact I | simpl; eapply H1; reflexivity].
    + destruct (rev s) as [|c r] eqn:E; [exact I|]. simpl.
      apply (H2 (rev r) c). rewrite <- (rev_involutive s), E. reflexivity.
Qed.

(** ** The field escaper *)

Lemma replaceChar_doubles (s : jsstring) :
  QuotesDoubled s (replaceChar QUOTE [QUOTE; QUOTE] s).
Proof.
  induction s as [|c s IH]; simpl; [constructor|].
  destruct (c =? QUOTE) eqn:E.
  - apply N.eqb_eq in E. subst c. simpl. constructor. assumption.
  - apply N.eqb_neq in E. simpl. constructor; assumption.
Qed.

Lemma replaceChar_absent (c : N) (by_ s : jsstring) :
  ~ In c s -> replaceChar c by_ s = s.
Proof.
  induction s as [|x s IH]; simpl; [reflexivity|]. intros H.
  destruct (x =? c) eqn:E.
  - apply N.eqb_eq in E. subst x. tauto.
  - simpl. rewrite IH by tauto. reflexivity.
Qed.

Lemma needsQuoting_includes (s : jsstring) :
  includes s COMMA || includes s QUOTE || includes s LF || includes s CR = true
  <-> needsQuoting s.
Proof.
  unfold needsQuoting.
  rewrite !orb_true_iff, !includes_true_iff. tauto.
Qed.

Lemma escapeCsvField_text (v : value) :
  escapeCsvField v = escapeCsvField (Str (textOf v)).
Proof. destruct v; reflexivity. Qed.

Lemma escapeCsvField_quoted (s : jsstring) :
  needsQuoting s ->
  escapeCsvField (Str s)
  = QUOTE :: replaceChar QUOTE [QUOTE; QUOTE] s ++ [QUOTE].
Proof.
  intros H. apply needsQuoting_includes in H.
  unfold escapeCsvField. simpl looseNull. cbv iota. simpl toStr.
  rewrite H. reflexivity.
Qed.

Lemma escapeCsvField_plain (s : jsstring) :
  ~ needsQuoting s -> escapeCsvField (Str s) = s.
Proof.
  intros H.
  assert (Hq : ~ In QUOTE s) by (unfold needsQuoting in H; tauto).
  rewrite <- needsQuoting_includes in H. apply not_true_is_false in H.
  unfold escapeCsvField. simpl looseNull. cbv iota. simpl toStr.
  rewrite H. apply replaceChar_absent. assumption.
Qed.

Lemma needsQuoting_dec (s : jsstring) : {needsQuoting s} + {~ needsQuoting s}.
Proof.
  destruct (includes s COMMA || includes s QUOTE || includes s LF
            || includes s CR) eqn:E.
  - left. apply needsQuoting_includes. assumption.
  - right. rewrite <- needsQuoting_includes. congruence.
Defined.

(** C2.  The field escaper is a function of every value (an absent or null
    value counts as the empty text); when the text contains a comma, a
    double-quote, a line feed or a carriage return the result is the text
    with every double-quote doubled, wrapped in double-quotes, and
    otherwise the result is the text itself. *)
Theorem escapeCsvField_spec (v : value) :
  (needsQuoting (textOf v) ->
   exists t, QuotesDoubled (textOf v) t
             /\ escapeCsvField v = [QUOTE] ++ t ++ [QUOTE])
  /\ (~ needsQuoting (textOf v) -> escapeCsvField v = textOf v).
Proof.
  rewrite escapeCsvField_text. split.
  - intros H. exists (replaceChar QUOTE [QUOTE; QUOTE] (textOf v)).
    split; [apply replaceChar_doubles | apply escapeCsvField_quoted, H].
  - apply escapeCsvField_plain.
Qed.

(** [he said "hi"] is escaped as the spec's example says, and plain text
    and the absent value as themselves. *)
Lemma escapeCsvField_spec_witness :
  (exists t,
      QuotesDoubled (lit "he said " ++ [QUOTE] ++ lit "hi" ++ [QUOTE]) t
      /\ escapeCsvField (Str (lit "he said " ++ [QUOTE] ++ lit "hi" ++ [QUOTE]))
         = [QUOTE] ++ t ++ [QUOTE])
  /\ escapeCsvField (Str (lit "cat")) = lit "cat"
  /\ escapeCsvField Undefined = [].
Proof.
  split; [|split].
  - apply (escapeCsvField_spec
             (Str (lit "he said " ++ [QUOTE] ++ lit "hi" ++ [QUOTE]))).
    right; left. vm_compute. tauto.
  - apply (escapeCsvField_spec (Str (lit "cat"))).
    vm_compute. intros [H|[H|[H|H]]];
      repeat (destruct H as [H|H]; [discriminate H|]); exact H.
  - apply (escapeCsvField_spec Undefined).
    vm_compute. tauto.
Defined.

(** ** The encoder *)

Lemma join_cons (sep p : jsstring) (rest : list jsstring) :
  join sep (p :: rest) = p ++ flat_map (fun l => sep ++ l) rest.
Proof.
  revert p; induction rest as [|q rest IH]; intros p.
  - simpl. rewrite app_nil_r. reflexivity.
  - change (join sep (p :: q :: rest)) with (p ++ sep ++ join sep (q :: rest)).
    rewrite IH. cbn [flat_map]. rewrite <- app_assoc. reflexivity.
Qed.

Lemma endsWith_app (c : N) (a b : jsstring) :
  b <> [] -> endsWith c (a ++ b) -> endsWith c b.
Proof.
  intros Hb [r E].
  destruct (exists_last Hb) as [b' [x Eb]]. subst b.
  rewrite app_assoc in E. apply app_inj_tail in E. destruct E as [_ ->].
  exists b'. reflexivity.
Qed.

Lemma endsWith_In (c : N) (s : jsstring) : endsWith c s -> In c s.
Proof. intros [r ->]. apply in_or_app. right. left. reflexivity. Qed.

Lemma escapeCsvField_end (v : value) (c : N) :
  endsWith c (escapeCsvField v) -> c = QUOTE \/ ~ needsQuoting (textOf v).
Proof.
  rewrite escapeCsvField_text.
  destruct (needsQuoting_dec (textOf v)) as [H|H]; [|auto].
  rewrite (escapeCsvField_quoted _ H). intros [r E].
  left. change (QUOTE :: replaceChar QUOTE [QUOTE; QUOTE] (textOf v) ++ [QUOTE])
    with ((QUOTE :: replaceChar QUOTE [QUOTE; QUOTE] (textOf v)) ++ [QUOTE]) in E.
  apply app_inj_tail in E. symmetry. apply E.
Qed.

Lemma entryLine_end (e : Entry) (c : N) :
  endsWith c (entryLine e) ->
  c = COMMA \/ c = QUOTE
  \/ (endsWith c (textOf (entry_definition e))
      /\ ~ needsQuoting (textOf (entry_definition e))).
Proof.
  unfold entryLine. intros H. rewrite app_assoc in H.
  destruct (escapeCsvField (entry_definition e)) as [|x d] eqn:Ed.
  - rewrite app_nil_r in H. destruct H as [r E].
    apply app_inj_tail in E. left. symmetry. apply E.
  - apply endsWith_app in H; [|discriminate]. rewrite <- Ed in H.
    destruct (escapeCsvField_end _ _ H) as [Hq|Hn]; [auto|].
    right; right. split; [|assumption].
    rewrite escapeCsvField_text, (escapeCsvField_plain _ Hn) in H. exact H.
Qed.

Lemma entryLine_not_LF (e : Entry) : ~ endsWith LF (entryLine e).
Proof.
  intros H. destruct (entryLine_end _ _ H) as [E|[E|[H1 H2]]];
    try discriminate E.
  apply H2. right; right; left. apply endsWith_In. assumption.
Qed.

(** C3.  The encoder emits the header line [word,definition] followed by,
    for each record in input order, a newline and the line
    escaped(word) , escaped(definition); nothing follows the last line, so
    the blob does not end in a newline; for the empty sequence the result is
    the header line alone. *)
Theorem wordsToCsv_spec :
  (forall wordsArray : list Entry,
      wordsToCsv wordsArray
      = lit "word,definition"
          ++ flat_map (fun e => [LF] ++ escapeCsvField (entry_word e)
                                  ++ [COMMA]
                                  ++ escapeCsvField (entry_definition e))
                      wordsArray)
  /\ (forall wordsArray : list Entry, ~ endsWith LF (wordsToCsv wordsArray))
  /\ wordsToCsv [] = lit "word,definition".
Proof.
  assert (Hform : forall ws, wordsToCsv ws
     = header ++ flat_map (fun e => [LF] ++ entryLine e) ws).
  { intros ws. unfold wordsToCsv. rewrite join_cons.
    rewrite flat_map_concat_map, map_map, <- flat_map_concat_map.
    reflexivity. }
  split; [exact Hform | split; [|reflexivity]].
  intros ws. rewrite Hform.
  destruct ws as [|e ws _] using rev_ind.
  - cbn [flat_map]. rewrite app_nil_r. intros [r E].
    assert (E' : rev header = rev (r ++ [LF])) by (rewrite E; reflexivity).
    rewrite rev_app_distr in E'. vm_compute in E'. discriminate E'.
  - rewrite flat_map_app. cbn [flat_map]. rewrite app_nil_r. intros H.
    rewrite !app_assoc in H.
    apply (endsWith_app LF _ (entryLine e)) in H.
    + exact (entryLine_not_LF _ H).
    + unfold entryLine. destruct (escapeCsvField (entry_word e)); discriminate.
Qed.

(** ** The line tokenizer *)

(** C4.  The tokenizer returns nothing for a line that is empty after
    trimming; otherwise it scans the trimmed line left to right from the
    unquoted state as [specTokens] words it (an escaped double-quote inside
    a quoted region is one literal double-quote and consumes two
    characters, any other double-quote toggles the region, a comma ends a
    field only outside a quoted region, every other character is appended,
    and the accumulated field is the final field), and reads the word and
    the definition off the first two fields. *)
Theorem parseTwoFieldCsvLine_spec (line : jsstring) :
  parseTwoFieldCsvLine line
  = if truthy (trim line)
    then Some {| parsed_word :=
                   fieldText (specTokens [] [] false (trim line)) 0;
                 parsed_definition :=
                   fieldText (specTokens [] [] false (trim line)) 1 |}
    else None.
Proof.
  unfold parseTwoFieldCsvLine.
  rewrite scannedFields_specTokens.
  destruct (trim line); reflexivity.
Qed.

Lemma notBlank_true_iff (line : jsstring) :
  notBlank line = true <-> trim line <> [].
Proof.
  unfold notBlank. rewrite negb_true_iff.
  destruct (strEq (trim line) []) eqn:E.
  - apply strEq_true_iff in E. split; [discriminate | congruence].
  - split; [|reflexivity]. intros _ H. rewrite H in E. discriminate E.
Qed.

Lemma parse_notBlank (line : jsstring) :
  notBlank line = true ->
  parseTwoFieldCsvLine line
  = Some {| parsed_word := fst (lineRecord line);
            parsed_definition := snd (lineRecord line) |}.
Proof.
  intros H. apply notBlank_true_iff in H.
  unfold parseTwoFieldCsvLine, lineRecord.
  destruct (trim line); [congruence | reflexivity].
Qed.

Lemma parse_blank (line : jsstring) :
  notBlank line = false -> parseTwoFieldCsvLine line = None.
Proof.
  unfold notBlank. rewrite negb_false_iff, strEq_true_iff.
  unfold parseTwoFieldCsvLine. intros ->. reflexivity.
Qed.

(** ** The decoder *)

Lemma filter_allNotBlank (lines : list jsstring) :
  allNotBlank (filter notBlank lines).
Proof.
  apply Forall_forall. intros l H. apply filter_In in H. apply H.
Qed.

Lemma dropHeader_cases (h : Host) (lines : list jsstring) :
  dropHeader h lines = lines \/ dropHeader h lines = tl lines.
Proof.
  destruct lines as [|l r]; simpl; [auto|].
  destruct (isHeaderLine h l); auto.
Qed.

Lemma dataLines_allNotBlank (h : Host) (csv : jsstring) :
  allNotBlank (dataLines h csv).
Proof.
  unfold dataLines.
  pose proof (filter_allNotBlank (splitLines csv)) as H.
  destruct (dropHeader_cases h (filter notBlank (splitLines csv))) as [-> | ->];
    [assumption|].
  destruct (filter notBlank (splitLines csv)); [assumption|].
  simpl. inversion H; assumption.
Qed.

(** One word object per non-blank line, in order, numbered from [k]. *)
Lemma importLines_notBlank (h : Host) (lines : list jsstring) :
  allNotBlank lines ->
  forall k,
    Forall2 (fun l w => parseTwoFieldCsvLine l
                        = Some {| parsed_word := word w;
                                  parsed_definition := definition w |})
            lines (filterBoolean (importLines h k lines))
    /\ map recordOf (filterBoolean (importLines h k lines))
       = map lineRecord lines.
Proof.
  induction 1 as [|l lines Hl _ IH]; intros k.
  - split; constructor.
  - cbn [importLines]. rewrite (parse_notBlank l Hl).
    cbn [filterBoolean map]. destruct (IH (S k)) as [IH1 IH2]. split.
    + constructor; [rewrite (parse_notBlank l Hl); reflexivity | assumption].
    + rewrite IH2. unfold recordOf at 1. cbn [word definition parsed_word
        parsed_definition]. destruct (lineRecord l); reflexivity.
Qed.

Lemma decode_dataLines (h : Host) (csv : jsstring) :
  decode h csv = map lineRecord (dataLines h csv).
Proof.
  unfold decode, csvToWords.
  apply importLines_notBlank, dataLines_allNotBlank.
Qed.

Lemma isHeaderLine_true_iff (h : Host) (line : jsstring) :
  isHeaderLine h line = true
  <-> trim (toLowerCase (caseTable h) line) = lit "word,definition".
Proof. apply strEq_true_iff. Qed.

Lemma isHeaderLine_false_iff (h : Host) (line : jsstring) :
  isHeaderLine h line = false
  <-> trim (toLowerCase (caseTable h) line) <> lit "word,definition".
Proof.
  rewrite <- isHeaderLine_true_iff.
  destruct (isHeaderLine h line); split; congruence.
Qed.

(** C5.  With [first :: rest] the non-blank lines of the blob, the decoder
    discards [first] when, lowercased and trimmed, it equals
    [word,definition], and keeps it otherwise; the blob made of the header
    and the line [cat,a small feline] decodes to the single Record
    (cat, a small feline), and so does the blob without the header. *)
Theorem csvToWords_header_optional :
  (forall (h : Host) (csvString first : jsstring) (rest : list jsstring),
      filter notBlank (splitLines csvString) = first :: rest ->
      (trim (toLowerCase (caseTable h) first) = lit "word,definition" ->
       decode h csvString = map lineRecord rest)
      /\ (trim (toLowerCase (caseTable h) first) <> lit "word,definition" ->
          decode h csvString = map lineRecord (first :: rest)))
  /\ (forall h : Host,
         decode h (lit "word,definition" ++ [LF] ++ lit "cat,a small feline")
         = [(lit "cat", lit "a small feline")])
  /\ (forall h : Host,
         decode h (lit "cat,a small feline")
         = [(lit "cat", lit "a small feline")]).
Proof.
  split; [|split].
  - intros h csv first rest E. rewrite decode_dataLines.
    unfold dataLines. rewrite E. simpl dropHeader. split; intros H.
    + apply isHeaderLine_true_iff in H. rewrite H. reflexivity.
    + apply isHeaderLine_false_iff in H. rewrite H. reflexivity.
  - intros h. vm_compute. reflexivity.
  - intros h. vm_compute. reflexivity.
Qed.

Lemma csvToWords_header_optional_witness :
  decode plainHost (lit "Word,Definition " ++ [CR; LF; LF] ++ lit "dog,barks")
  = map lineRecord [lit "dog,barks"]
  /\ decode plainHost (lit "word;definition" ++ [LF] ++ lit "dog,barks")
     = map lineRecord [lit "word;definition"; lit "dog,barks"].
Proof.
  split.
  - apply (proj1 csvToWords_header_optional plainHost
             (lit "Word,Definition " ++ [CR; LF; LF] ++ lit "dog,barks")
             (lit "Word,Definition ") [lit "dog,barks"]).
    + vm_compute. reflexivity.
    + vm_compute. reflexivity.
  - apply (proj1 csvToWords_header_optional plainHost
             (lit "word;definition" ++ [LF] ++ lit "dog,barks")
             (lit "word;definition") [lit "dog,barks"]).
    + vm_compute. reflexivity.
    + vm_compute. discriminate.
Defined.

(** C10.  When the first non-blank line of a blob, lowercased and trimmed,
    equals [word,definition], the decoder removes that line, whatever it
    was meant to be, and the decoded sequence holds the records of the
    other lines only; whatever the first line is, every later non-blank
    line is kept, also one that reads [word,definition]. *)
Theorem csvToWords_first_line_only :
  (forall (h : Host) (csvString first : jsstring) (rest : list jsstring),
      filter notBlank (splitLines csvString) = first :: rest ->
      trim (toLowerCase (caseTable h) first) = lit "word,definition" ->
      decode h csvString = map lineRecord rest
      /\ length (csvToWords h csvString) = length rest)
  /\ (forall (h : Host) (csvString first : jsstring) (rest : list jsstring),
         filter notBlank (splitLines csvString) = first :: rest ->
         dataLines h csvString = rest
         \/ dataLines h csvString = first :: rest)
  /\ (forall h : Host,
         decode h (lit "WORD,DEFINITION" ++ [LF] ++ lit "word,definition"
                     ++ [LF] ++ lit "cat,a small feline")
         = [(lit "word", lit "definition"); (lit "cat", lit "a small feline")]).
Proof.
  split; [|split].
  - intros h csv first rest E H.
    apply isHeaderLine_true_iff in H.
    assert (Ed : dataLines h csv = rest)
      by (unfold dataLines; rewrite E; simpl; rewrite H; reflexivity).
    split.
    + rewrite decode_dataLines, Ed. reflexivity.
    + rewrite <- Ed.
      pose proof (importLines_notBlank h _ (dataLines_allNotBlank h csv) 0%nat)
        as [HF _].
      symmetry. exact (Forall2_length HF).
  - intros h csv first rest E. unfold dataLines. rewrite E. simpl.
    destruct (isHeaderLine h first); auto.
  - intros h. vm_compute. reflexivity.
Qed.

(** The intended data line WORD,DEFINITION is lost. *)
Lemma csvToWords_first_line_only_witness :
  decode plainHost (lit "WORD,DEFINITION" ++ [LF] ++ lit "cat,a small feline")
  = map lineRecord [lit "cat,a small feline"]
  /\ length (csvToWords plainHost
               (lit "WORD,DEFINITION" ++ [LF] ++ lit "cat,a small feline"))
     = 1%nat.
Proof.
  apply (proj1 csvToWords_first_line_only plainHost
           (lit "WORD,DEFINITION" ++ [LF] ++ lit "cat,a small feline")
           (lit "WORD,DEFINITION") [lit "cat,a small feline"]).
  - vm_compute. reflexivity.
  - vm_compute. reflexivity.
Defined.

(** ** Splitting a blob into lines *)

Lemma chomp_cases (l : jsstring) : chomp l = l \/ l = chomp l ++ [CR].
Proof.
  induction l as [|c r IH]; [left; reflexivity|].
  destruct r as [|c' r'].
  - simpl. destruct (c =? CR) eqn:E; [|auto].
    apply N.eqb_eq in E. subst c. right. reflexivity.
  - change (chomp (c :: c' :: r')) with (c :: chomp (c' :: r')).
    destruct IH as [-> | E]; [auto|]. right.
    change (c :: c' :: r' = c :: (chomp (c' :: r') ++ [CR])).
    f_equal. exact E.
Qed.

Lemma chomp_snoc_CR (l : jsstring) : chomp (l ++ [CR]) = l.
Proof.
  induction l as [|c r IH]; [reflexivity|].
  change ((c :: r) ++ [CR]) with (c :: (r ++ [CR])).
  destruct (r ++ [CR]) as [|x y] eqn:E.
  - destruct r; discriminate E.
  - change (chomp (c :: x :: y)) with (c :: chomp (x :: y)).
    rewrite IH. reflexivity.
Qed.

Lemma chomp_fixed (l : jsstring) : ~ endsWith CR l -> chomp l = l.
Proof.
  intros H. destruct (chomp_cases l) as [E|E]; [assumption|].
  exfalso. apply H. exists (chomp l). assumption.
Qed.

Lemma splitLinesFrom_noLF (l : jsstring) :
  noLF l -> forall cur, splitLinesFrom cur l = [cur ++ l].
Proof.
  unfold noLF. induction l as [|c r IH]; intros H cur.
  - simpl. rewrite app_nil_r. reflexivity.
  - assert (Hc : (c =? LF) = false)
      by (apply N.eqb_neq; intros ->; apply H; left; reflexivity).
    assert (Hr : ~ In LF r) by (intros X; apply H; right; assumption).
    cbn [splitLinesFrom]. rewrite Hc.
    destruct r as [|c' r'].
    + rewrite (IH Hr). rewrite app_nil_r. reflexivity.
    + assert (Hc' : (c' =? LF) = false)
        by (apply N.eqb_neq; intros ->; apply Hr; left; reflexivity).
      rewrite Hc', andb_false_r. rewrite (IH Hr), <- app_assoc. reflexivity.
Qed.

Lemma splitLinesFrom_line (l : jsstring) :
  noLF l ->
  forall cur rest,
    splitLinesFrom cur (l ++ LF :: rest)
    = (cur ++ chomp l) :: splitLinesFrom [] rest.
Proof.
  unfold noLF. induction l as [|c r IH]; intros H cur rest.
  - simpl. rewrite app_nil_r. reflexivity.
  - assert (Hc : (c =? LF) = false)
      by (apply N.eqb_neq; intros ->; apply H; left; reflexivity).
    assert (Hr : ~ In LF r) by (intros X; apply H; right; assumption).
    change ((c :: r) ++ LF :: rest) with (c :: (r ++ LF :: rest)).
    cbn [splitLinesFrom]. rewrite Hc.
    destruct r as [|c' r'].
    + cbn [app]. change (LF =? LF) with true. rewrite andb_true_r.
      simpl chomp. destruct (c =? CR).
      * rewrite app_nil_r. reflexivity.
      * change (LF :: rest) with ([] ++ LF :: rest).
        rewrite (IH Hr). rewrite app_nil_r. reflexivity.
    + assert (Hc' : (c' =? LF) = false)
        by (apply N.eqb_neq; intros ->; apply Hr; left; reflexivity).
      change ((c' :: r') ++ LF :: rest) with (c' :: (r' ++ LF :: rest)).
      cbv iota. rewrite Hc', andb_false_r.
      change (c' :: (r' ++ LF :: rest)) with ((c' :: r') ++ LF :: rest).
      rewrite (IH Hr).
      change (chomp (c :: c' :: r')) with (c :: chomp (c' :: r')).
      rewrite <- app_assoc. reflexivity.
Qed.

(** Every blob is a list of physical lines joined by line feeds. *)
Lemma blob_of_lines (csv : jsstring) :
  exists l rest, Forall noLF (l :: rest) /\ csv = join [LF] (l :: rest).
Proof.
  induction csv as [|c csv [l [rest [H E]]]].
  - exists [], []. split; [repeat constructor; intros [] | reflexivity].
  - destruct (N.eq_dec c LF) as [-> | Hc].
    + exists [], (l :: rest). split.
      * constructor; [intros [] | assumption].
      * rewrite E. reflexivity.
    + exists (c :: l), rest. split.
      * inversion H as [|? ? Hl Hrest]; subst. constructor; [|assumption].
        intros [X|X]; [congruence | exact (Hl X)].
      * rewrite E. destruct rest; reflexivity.
Qed.

Lemma splitLines_join_LF (l : jsstring) (rest : list jsstring) :
  Forall noLF (l :: rest) ->
  splitLines (join [LF] (l :: rest)) = chompInner (l :: rest).
Proof.
  revert l. induction rest as [|l' rest IH]; intros l H.
  - simpl. apply (splitLinesFrom_noLF l). inversion H; assumption.
  - change (join [LF] (l :: l' :: rest))
      with (l ++ LF :: join [LF] (l' :: rest)).
    change (chompInner (l :: l' :: rest))
      with (chomp l :: chompInner (l' :: rest)).
    inversion H as [|? ? Hl Hrest]; subst.
    unfold splitLines. rewrite (splitLinesFrom_line l Hl).
    f_equal. apply IH. assumption.
Qed.

Lemma splitLines_join_CRLF (l : jsstring) (rest : list jsstring) :
  Forall noLF (l :: rest) ->
  splitLines (join [CR; LF] (l :: rest)) = l :: rest.
Proof.
  revert l. induction rest as [|l' rest IH]; intros l H.
  - simpl. apply (splitLinesFrom_noLF l). inversion H; assumption.
  - change (join [CR; LF] (l :: l' :: rest))
      with (l ++ [CR; LF] ++ join [CR; LF] (l' :: rest)).
    change (l ++ [CR; LF] ++ join [CR; LF] (l' :: rest))
      with (l ++ [CR] ++ LF :: join [CR; LF] (l' :: rest)).
    rewrite app_assoc.
    inversion H as [|? ? Hl Hrest]; subst.
    unfold splitLines. rewrite splitLinesFrom_line.
    + rewrite chomp_snoc_CR. f_equal. apply IH. assumption.
    + unfold noLF. rewrite in_app_iff. intros [X|[X|[]]];
        [exact (Hl X) | discriminate X].
Qed.

(** ** Lines the decoder cannot tell apart *)

Lemma csvToWords_wordsOfLines (h : Host) (csv : jsstring) :
  csvToWords h csv = wordsOfLines h (splitLines csv).
Proof. reflexivity. Qed.

Lemma toLowerCase_snoc_CR (tbl : N -> jsstring) (s : jsstring) :
  toLowerCase tbl (s ++ [CR]) = toLowerCase tbl s ++ [CR].
Proof. unfold toLowerCase. rewrite flat_map_app. reflexivity. Qed.

Lemma sameLine_refl (h : Host) (l : jsstring) : sameLine h l l.
Proof. split; reflexivity. Qed.

Lemma sameLine_chomp (h : Host) (l : jsstring) : sameLine h l (chomp l).
Proof.
  destruct (chomp_cases l) as [-> | E]; [apply sameLine_refl|].
  unfold sameLine, isHeaderLine. rewrite E at 1 3.
  rewrite toLowerCase_snoc_CR, !trim_snoc_space by reflexivity.
  split; reflexivity.
Qed.

Lemma sameLine_chompInner (h : Host) (lines : list jsstring) :
  Forall2 (sameLine h) lines (chompInner lines).
Proof.
  induction lines as [|l rest IH]; [constructor|].
  destruct rest as [|l' rest].
  - constructor; [apply sameLine_refl | constructor].
  - change (chompInner (l :: l' :: rest))
      with (chomp l :: chompInner (l' :: rest)).
    constructor; [apply sameLine_chomp | assumption].
Qed.

Lemma sameLine_notBlank (h : Host) (a b : jsstring) :
  sameLine h a b -> notBlank a = notBlank b.
Proof. intros [E _]. unfold notBlank. rewrite E. reflexivity. Qed.

Lemma sameLine_parse (h : Host) (a b : jsstring) :
  sameLine h a b -> parseTwoFieldCsvLine a = parseTwoFieldCsvLine b.
Proof. intros [E _]. unfold parseTwoFieldCsvLine. rewrite E. reflexivity. Qed.

Lemma sameLine_filter (h : Host) (a b : list jsstring) :
  Forall2 (sameLine h) a b ->
  Forall2 (sameLine h) (filter notBlank a) (filter notBlank b).
Proof.
  induction 1 as [|x y a b Hxy _ IH]; simpl; [constructor|].
  rewrite <- (sameLine_notBlank h x y Hxy).
  destruct (notBlank x); [constructor|]; assumption.
Qed.

Lemma sameLine_dropHeader (h : Host) (a b : list jsstring) :
  Forall2 (sameLine h) a b ->
  Forall2 (sameLine h) (dropHeader h a) (dropHeader h b).
Proof.
  intros H. destruct H as [|x y a b Hxy Hab]; simpl; [constructor|].
  pose proof Hxy as [_ Eh]. rewrite <- Eh.
  destruct (isHeaderLine h x); [assumption|].
  constructor; assumption.
Qed.

Lemma sameLine_importLines (h : Host) (a b : list jsstring) :
  Forall2 (sameLine h) a b ->
  forall k, importLines h k a = importLines h k b.
Proof.
  induction 1 as [|x y a b Hxy _ IH]; intros k; simpl; [reflexivity|].
  rewrite <- (sameLine_parse h x y Hxy).
  destruct (parseTwoFieldCsvLine x); rewrite IH; reflexivity.
Qed.

Lemma wordsOfLines_sameLine (h : Host) (a b : list jsstring) :
  Forall2 (sameLine h) a b -> wordsOfLines h a = wordsOfLines h b.
Proof.
  intros H. unfold wordsOfLines. f_equal.
  apply sameLine_importLines, sameLine_dropHeader, sameLine_filter, H.
Qed.

Lemma csvToWords_join_LF (h : Host) (lines : list jsstring) :
  Forall noLF lines ->
  csvToWords h (join [LF] lines) = wordsOfLines h lines.
Proof.
  intros H. destruct lines as [|l rest]; [reflexivity|].
  rewrite csvToWords_wordsOfLines, (splitLines_join_LF l rest H).
  symmetry. apply wordsOfLines_sameLine, sameLine_chompInner.
Qed.

Lemma csvToWords_join_CRLF (h : Host) (lines : list jsstring) :
  Forall noLF lines ->
  csvToWords h (join [CR; LF] lines) = wordsOfLines h lines.
Proof.
  intros H. destruct lines as [|l rest]; [reflexivity|].
  rewrite csvToWords_wordsOfLines, (splitLines_join_CRLF l rest H).
  reflexivity.
Qed.

Lemma filter_twice {A : Type} (f : A -> bool) (l : list A) :
  filter f (filter f l) = filter f l.
Proof.
  induction l as [|x l IH]; simpl; [reflexivity|].
  destruct (f x) eqn:E; simpl; [rewrite E, IH|]; auto.
Qed.

Lemma Forall_filter {A : Type} (P : A -> Prop) (f : A -> bool) (l : list A) :
  Forall P l -> Forall P (filter f l).
Proof.
  rewrite !Forall_forall. intros H x Hx. apply filter_In in Hx. apply H, Hx.
Qed.

(** Closes a goal [~ In c s] or [noLF s] on a literal string. *)
Ltac absent :=
  let H := fresh in
  vm_compute; intros H;
  repeat (destruct H as [H|H]; [discriminate H|]); exact H.

(** C6.  The blob made of physical lines joined by line feeds, some of
    them blank, decodes to the same word objects as the blob made of the
    same lines without the blank ones. *)
Theorem csvToWords_blank_lines (h : Host) (lines : list jsstring) :
  Forall noLF lines ->
  csvToWords h (join [LF] lines)
  = csvToWords h (join [LF] (filter notBlank lines)).
Proof.
  intros H.
  rewrite (csvToWords_join_LF h lines H).
  rewrite (csvToWords_join_LF h _ (Forall_filter _ notBlank _ H)).
  unfold wordsOfLines. rewrite filter_twice. reflexivity.
Qed.

Lemma csvToWords_blank_lines_witness :
  csvToWords plainHost
    (join [LF] [[]; lit "cat,a small feline"; lit "  "; [CR];
                lit "dog,barks"; []])
  = csvToWords plainHost
      (join [LF] [lit "cat,a small feline"; lit "dog,barks"]).
Proof.
  apply (csvToWords_blank_lines plainHost
           [[]; lit "cat,a small feline"; lit "  "; [CR];
            lit "dog,barks"; []]).
  repeat constructor; absent.
Defined.

(** C7.  The same physical lines joined with carriage return + line feed
    and joined with line feed alone decode to the same word objects. *)
Theorem csvToWords_line_endings (h : Host) (lines : list jsstring) :
  Forall noLF lines ->
  csvToWords h (join [CR; LF] lines) = csvToWords h (join [LF] lines).
Proof.
  intros H.
  rewrite (csvToWords_join_LF h lines H), (csvToWords_join_CRLF h lines H).
  reflexivity.
Qed.

Lemma csvToWords_line_endings_witness :
  csvToWords plainHost
    (join [CR; LF] [lit "word,definition"; lit "cat,a small feline";
                    lit "dog,barks" ++ [CR]; []])
  = csvToWords plainHost
      (join [LF] [lit "word,definition"; lit "cat,a small feline";
                  lit "dog,barks" ++ [CR]; []]).
Proof.
  apply (csvToWords_line_endings plainHost
           [lit "word,definition"; lit "cat,a small feline";
            lit "dog,barks" ++ [CR]; []]).
  repeat constructor; absent.
Defined.

(** ** Doubled double-quotes left in a field *)

Lemma occursIn_cons (pat : jsstring) (c : N) (s : jsstring) :
  occursIn pat (c :: s) <->
  (exists b, c :: s = pat ++ b) \/ occursIn pat s.
Proof.
  split.
  - intros [a [b E]]. destruct a as [|x a].
    + left. exists b. exact E.
    + right. exists a, b. simpl in E. congruence.
  - intros [[b E] | [a [b E]]].
    + exists [], b. exact E.
    + exists (c :: a), b. simpl. congruence.
Qed.

Lemma occursIn_nil (pat : jsstring) : pat <> [] -> ~ occursIn pat [].
Proof.
  intros Hp [a [b E]]. symmetry in E.
  apply app_eq_nil in E. destruct E as [_ E].
  apply app_eq_nil in E. destruct E as [E _]. contradiction.
Qed.

Lemma occursIn_inner (pat w1 s w2 : jsstring) :
  occursIn pat s -> occursIn pat (w1 ++ s ++ w2).
Proof.
  intros [a [b ->]]. exists (w1 ++ a), (b ++ w2).
  rewrite <- !app_assoc. reflexivity.
Qed.

Lemma occursIn_trim (pat s : jsstring) :
  occursIn pat (trim s) -> occursIn pat s.
Proof.
  intros H. destruct (trim_split s) as [w1 [w2 [E _]]].
  rewrite E. apply occursIn_inner. assumption.
Qed.

(** Induction on lists two elements at a time. *)
Lemma list_pair_ind {A : Type} (P : list A -> Prop) :
  P [] -> (forall a, P [a]) ->
  (forall a b r, P r -> P (b :: r) -> P (a :: b :: r)) ->
  forall l, P l.
Proof.
  intros H0 H1 H2 l.
  assert (H : P l /\ forall a, P (a :: l)).
  { induction l as [|x l [IH1 IH2]]; [split; [exact H0 | exact H1]|].
    split; [apply IH2|]. intros a. apply H2; [exact IH1 | apply IH2]. }
  apply H.
Qed.

Lemma replaceQuotePairs_cons2 (a b : N) (r : jsstring) :
  replaceQuotePairs (a :: b :: r)
  = if (a =? QUOTE) && (b =? QUOTE)
    then QUOTE :: replaceQuotePairs r
    else a :: replaceQuotePairs (b :: r).
Proof. reflexivity. Qed.

Lemma replaceQuotePairs_keeps_pairs (s : jsstring) :
  hd_error (replaceQuotePairs s) = hd_error s
  /\ (occursIn quotePair (replaceQuotePairs s) -> occursIn quoteTriple s).
Proof.
  induction s as [| a | a b r [IHr1 IHr2] [IHb1 IHb2]] using list_pair_ind.
  - split; [reflexivity|]. intros H. exfalso. revert H.
    apply occursIn_nil. discriminate.
  - split; [reflexivity|]. simpl. intros H.
    apply occursIn_cons in H. destruct H as [[x E] | H].
    + discriminate E.
    + exfalso. revert H. apply occursIn_nil. discriminate.
  - rewrite replaceQuotePairs_cons2.
    destruct ((a =? QUOTE) && (b =? QUOTE)) eqn:E.
    + apply andb_true_iff in E. destruct E as [Ea Eb].
      apply N.eqb_eq in Ea, Eb. subst a b.
      split; [reflexivity|]. intros H.
      apply occursIn_cons in H. destruct H as [[x E] | H].
      * unfold quotePair in E. simpl in E. injection E as E.
        assert (Hr : hd_error r = Some QUOTE)
          by (rewrite <- IHr1; exact (f_equal (@hd_error N) E)).
        destruct r as [|c r']; [discriminate Hr|].
        simpl in Hr. injection Hr as ->.
        exists [], r'. reflexivity.
      * apply (occursIn_inner _ [QUOTE; QUOTE] r []) in IHr2; [|exact H].
        rewrite app_nil_r in IHr2. exact IHr2.
    + split; [reflexivity|]. intros H.
      apply occursIn_cons in H. destruct H as [[x Ex] | H].
      * exfalso. unfold quotePair in Ex. cbn [app] in Ex.
        injection Ex as Ea Ex.
        assert (Hb : hd_error (b :: r) = Some QUOTE)
          by (rewrite <- IHb1; exact (f_equal (@hd_error N) Ex)).
        simpl in Hb. injection Hb as ->. subst a.
        discriminate E.
      * apply (occursIn_inner _ [a] (b :: r) []) in IHb2; [|exact H].
        rewrite app_nil_r in IHb2. exact IHb2.
Qed.

Lemma replaceQuotePairs_fixed (s : jsstring) :
  ~ occursIn quotePair s -> replaceQuotePairs s = s.
Proof.
  induction s as [|a s IH]; [reflexivity|]. intros H.
  destruct s as [|b r]; [reflexivity|].
  rewrite replaceQuotePairs_cons2.
  destruct ((a =? QUOTE) && (b =? QUOTE)) eqn:E.
  - exfalso. apply H. apply andb_true_iff in E. destruct E as [Ea Eb].
    apply N.eqb_eq in Ea, Eb. subst a b. exists [], r. reflexivity.
  - f_equal. apply IH. intros X. apply H.
    apply occursIn_cons. right. exact X.
Qed.

Lemma fieldText_trim (fs : list jsstring) (k : nat) :
  fieldText fs k = trim (replaceQuotePairs (nth k fs [])).
Proof.
  unfold fieldText.
  destruct (nth_error fs k) as [f|] eqn:E.
  - rewrite (nth_error_nth fs k ([] : jsstring) E). destruct f; reflexivity.
  - rewrite (nth_error_nth_None fs k ([] : jsstring) E). reflexivity.
Qed.

Lemma fieldText_noOuterSpace (fs : list jsstring) (k : nat) :
  noOuterSpace (fieldText fs k).
Proof. rewrite fieldText_trim. apply trim_noOuterSpace. Qed.

Lemma fieldText_pairs (fs : list jsstring) (k : nat) :
  ~ occursIn quoteTriple (nth k fs []) ->
  ~ occursIn quotePair (fieldText fs k).
Proof.
  intros H X. apply H. rewrite fieldText_trim in X.
  apply occursIn_trim in X.
  apply (replaceQuotePairs_keeps_pairs (nth k fs [])). exact X.
Qed.

Lemma Forall2_In_r {A B : Type} (R : A -> B -> Prop) (l : list A)
  (l' : list B) (y : B) :
  Forall2 R l l' -> In y l' -> exists x, In x l /\ R x y.
Proof.
  induction 1 as [|a b l l' Hab _ IH]; intros Hy; [destruct Hy|].
  destruct Hy as [-> | Hy].
  - exists a. split; [left; reflexivity | assumption].
  - destruct (IH Hy) as [x [Hx HR]]. exists x. split; [right|]; assumption.
Qed.

(** C9, as the code has it.  Every field the tokenizer returns is the
    scanned field with the pairs of double-quotes replaced left to right,
    then trimmed: it has no leading and no trailing whitespace, and it
    holds two consecutive double-quotes only if the scanned field held
    three in a row.  So no word and no definition of a decoded Record has
    whitespace around it. *)
Theorem parseTwoFieldCsvLine_fields :
  (forall (line : jsstring) (p : Parsed),
      parseTwoFieldCsvLine line = Some p ->
      (parsed_word p
       = trim (replaceQuotePairs (nth 0 (scannedFields (trim line)) []))
       /\ parsed_definition p
          = trim (replaceQuotePairs (nth 1 (scannedFields (trim line)) [])))
      /\ (noOuterSpace (parsed_word p) /\ noOuterSpace (parsed_definition p))
      /\ (~ occursIn quoteTriple (nth 0 (scannedFields (trim line)) []) ->
          ~ occursIn quotePair (parsed_word p))
      /\ (~ occursIn quoteTriple (nth 1 (scannedFields (trim line)) []) ->
          ~ occursIn quotePair (parsed_definition p)))
  /\ (forall (h : Host) (csvString : jsstring) (w : Word),
         In w (csvToWords h csvString) ->
         noOuterSpace (word w) /\ noOuterSpace (definition w)).
Proof.
  assert (Hparse : forall line p, parseTwoFieldCsvLine line = Some p ->
            parsed_word p = fieldText (scannedFields (trim line)) 0
            /\ parsed_definition p = fieldText (scannedFields (trim line)) 1).
  { intros line p. unfold parseTwoFieldCsvLine.
    destruct (length (trim line) =? 0)%nat; [discriminate|].
    intros E. injection E as <-. split; reflexivity. }
  split.
  - intros line p E. destruct (Hparse line p E) as [-> ->].
    split; [split; apply fieldText_trim|].
    split; [split; apply fieldText_noOuterSpace|].
    split; apply fieldText_pairs.
  - intros h csv w Hw.
    pose proof (importLines_notBlank h _ (dataLines_allNotBlank h csv) 0%nat)
      as [HF _].
    destruct (Forall2_In_r _ _ _ w HF Hw) as [line [_ E]].
    destruct (Hparse line _ E) as [Ew Ed].
    cbn [parsed_word parsed_definition] in Ew, Ed. rewrite Ew, Ed.
    split; apply fieldText_noOuterSpace.
Qed.

(** Closes a goal [~ occursIn pat s] on a literal string [s]. *)
Ltac no_occurrence :=
  let X := fresh in
  intros X;
  repeat (apply occursIn_cons in X; destruct X as [[? X]|X];
          [discriminate X|]);
  revert X; apply occursIn_nil; discriminate.

Lemma parseTwoFieldCsvLine_fields_witness :
  noOuterSpace (lit "a b") /\ ~ occursIn quotePair (lit "a b").
Proof.
  pose proof (proj1 parseTwoFieldCsvLine_fields (lit "  a b ,c")
                {| parsed_word := lit "a b"; parsed_definition := lit "c" |})
    as H.
  destruct H as [_ [[H1 _] [H2 _]]]; [vm_compute; reflexivity|].
  split; [exact H1|]. apply H2.
  replace (nth 0 (scannedFields (trim (lit "  a b ,c"))) [])
    with ([97; 32; 98; 32] : jsstring) by (vm_compute; reflexivity).
  unfold quoteTriple, QUOTE. no_occurrence.
Defined.

(** The line of eight double-quotes: the scan leaves three double-quotes in
    the first field, the replacement turns them into two, and the word of
    the decoded record is two consecutive double-quotes. *)
Lemma parseTwoFieldCsvLine_quote_pair_survives :
  scannedFields (trim (repeat QUOTE 8)) = [[QUOTE; QUOTE; QUOTE]]
  /\ parseTwoFieldCsvLine (repeat QUOTE 8)
     = Some {| parsed_word := [QUOTE; QUOTE]; parsed_definition := [] |}
  /\ decode plainHost (repeat QUOTE 8) = [([QUOTE; QUOTE], [])]
  /\ occursIn [QUOTE; QUOTE] [QUOTE; QUOTE].
Proof.
  split; [|split; [|split]]; try (vm_compute; reflexivity).
  exists [], []. reflexivity.
Qed.

(** ** Scanning an escaped field *)

Lemma specTokens_open (fs : list jsstring) (cur r : jsstring) :
  specTokens fs cur false (QUOTE :: r) = specTokens fs cur true r.
Proof. destruct r; reflexivity. Qed.

Lemma specTokens_plain (w : jsstring) :
  ~ In QUOTE w -> ~ In COMMA w ->
  forall fs cur rest,
    specTokens fs cur false (w ++ rest) = specTokens fs (cur ++ w) false rest.
Proof.
  induction w as [|c w IH]; intros Hq Hc fs cur rest.
  - rewrite app_nil_r. reflexivity.
  - assert (Eq : (c =? QUOTE) = false)
      by (apply N.eqb_neq; intros ->; apply Hq; left; reflexivity).
    assert (Ec : (c =? COMMA) = false)
      by (apply N.eqb_neq; intros ->; apply Hc; left; reflexivity).
    cbn [app specTokens]. rewrite Eq, Ec. cbn [andb].
    rewrite IH;
      [ rewrite <- app_assoc; reflexivity
      | intros X; apply Hq; right; exact X
      | intros X; apply Hc; right; exact X ].
Qed.

Lemma specTokens_quoted (w : jsstring) :
  forall fs cur rest,
    hd_error rest <> Some QUOTE ->
    specTokens fs cur true
      (replaceChar QUOTE [QUOTE; QUOTE] w ++ QUOTE :: rest)
    = specTokens fs (cur ++ w) false rest.
Proof.
  induction w as [|c w IH]; intros fs cur rest Hrest.
  - rewrite app_nil_r. cbn [replaceChar flat_map app specTokens].
    change (QUOTE =? QUOTE) with true. cbv iota.
    destruct rest as [|c' r']; [reflexivity|].
    assert (E : (c' =? QUOTE) = false)
      by (apply N.eqb_neq; intros ->; apply Hrest; reflexivity).
    rewrite E. reflexivity.
  - change (replaceChar QUOTE [QUOTE; QUOTE] (c :: w))
      with ((if c =? QUOTE then [QUOTE; QUOTE] else [c])
              ++ replaceChar QUOTE [QUOTE; QUOTE] w).
    destruct (c =? QUOTE) eqn:Eq.
    + apply N.eqb_eq in Eq. subst c.
      cbn [app specTokens]. change (QUOTE =? QUOTE) with true.
      cbn [andb]. cbv iota.
      rewrite IH by assumption. rewrite <- app_assoc. reflexivity.
    + cbn [app specTokens]. rewrite Eq. rewrite andb_false_r.
      rewrite IH by assumption. rewrite <- app_assoc. reflexivity.
Qed.

Lemma specTokens_field (w : jsstring) (fs : list jsstring)
  (cur rest : jsstring) :
  hd_error rest <> Some QUOTE ->
  specTokens fs cur false (escapeCsvField (Str w) ++ rest)
  = specTokens fs (cur ++ w) false rest.
Proof.
  intros Hrest. destruct (needsQuoting_dec w) as [H|H].
  - rewrite (escapeCsvField_quoted w H).
    change ((QUOTE :: replaceChar QUOTE [QUOTE; QUOTE] w ++ [QUOTE]) ++ rest)
      with (QUOTE :: ((replaceChar QUOTE [QUOTE; QUOTE] w ++ [QUOTE]) ++ rest)).
    rewrite specTokens_open, <- app_assoc.
    apply specTokens_quoted. assumption.
  - rewrite (escapeCsvField_plain w H).
    apply specTokens_plain; unfold needsQuoting in H; tauto.
Qed.

Lemma specTokens_entryLine (w d : jsstring) :
  specTokens [] [] false (entryLine (entryOf (w, d))) = [w; d].
Proof.
  unfold entryLine, entryOf. cbn [entry_word entry_definition fst snd].
  cbn [app]. rewrite specTokens_field by discriminate.
  cbn [app specTokens]. change (COMMA =? QUOTE) with false.
  change (COMMA =? COMMA) with true. cbn [andb negb]. cbv iota.
  rewrite <- (app_nil_r (escapeCsvField (Str d))).
  rewrite specTokens_field by discriminate.
  reflexivity.
Qed.

(** ** The lines the encoder writes *)

Lemma In_replaceChar (c : N) (s : jsstring) :
  In c (replaceChar QUOTE [QUOTE; QUOTE] s) -> c = QUOTE \/ In c s.
Proof.
  induction s as [|x s IH]; simpl; [tauto|].
  rewrite in_app_iff. intros [H|H].
  - destruct (x =? QUOTE); simpl in H; intuition.
  - destruct (IH H); auto.
Qed.

Lemma In_escapeCsvField (c : N) (s : jsstring) :
  In c (escapeCsvField (Str s)) -> c = QUOTE \/ In c s.
Proof.
  destruct (needsQuoting_dec s) as [H|H].
  - rewrite (escapeCsvField_quoted s H). simpl. rewrite in_app_iff. simpl.
    intros [X|[X|[X|[]]]]; auto. apply In_replaceChar. assumption.
  - rewrite (escapeCsvField_plain s H). auto.
Qed.

Lemma entryLine_noLF (w d : jsstring) :
  noLF w -> noLF d -> noLF (entryLine (entryOf (w, d))).
Proof.
  unfold noLF, entryLine, entryOf. cbn [entry_word entry_definition fst snd].
  intros Hw Hd. rewrite !in_app_iff. intros [X|[X|X]].
  - apply In_escapeCsvField in X. destruct X as [X|X];
      [discriminate X | exact (Hw X)].
  - destruct X as [X|[]]. discriminate X.
  - apply In_escapeCsvField in X. destruct X as [X|X];
      [discriminate X | exact (Hd X)].
Qed.

Lemma startsClean_escaped (s : jsstring) :
  startsClean s -> startsClean (escapeCsvField (Str s)).
Proof.
  intros H. destruct (needsQuoting_dec s) as [Hn|Hn].
  - rewrite (escapeCsvField_quoted s Hn). reflexivity.
  - rewrite (escapeCsvField_plain s Hn). assumption.
Qed.

Lemma endsClean_escaped (s : jsstring) :
  startsClean (rev s) -> startsClean (rev (escapeCsvField (Str s))).
Proof.
  intros H. destruct (needsQuoting_dec s) as [Hn|Hn].
  - rewrite (escapeCsvField_quoted s Hn).
    change (QUOTE :: replaceChar QUOTE [QUOTE; QUOTE] s ++ [QUOTE])
      with ((QUOTE :: replaceChar QUOTE [QUOTE; QUOTE] s) ++ [QUOTE]).
    rewrite rev_app_distr. reflexivity.
  - rewrite (escapeCsvField_plain s Hn). assumption.
Qed.

Lemma startsClean_before_comma (a b : jsstring) :
  startsClean a -> startsClean (a ++ COMMA :: b).
Proof. destruct a; simpl; [reflexivity | auto]. Qed.

Lemma entryLine_noOuterSpace (w d : jsstring) :
  noOuterSpace w -> noOuterSpace d ->
  noOuterSpace (entryLine (entryOf (w, d))).
Proof.
  intros [Hw _] [_ Hd].
  unfold entryLine, entryOf. cbn [entry_word entry_definition fst snd].
  split.
  - apply startsClean_before_comma, startsClean_escaped, Hw.
  - cbn [app]. rewrite rev_app_distr. cbn [rev]. rewrite <- app_assoc.
    apply startsClean_before_comma, endsClean_escaped, Hd.
Qed.

Lemma entryLine_not_nil (e : Entry) : entryLine e <> [].
Proof.
  unfold entryLine. destruct (escapeCsvField (entry_word e)); discriminate.
Qed.

(** ** Decoding what the encoder wrote *)

Lemma fieldText_clean (fs : list jsstring) (k : nat) :
  noOuterSpace (nth k fs []) -> ~ occursIn quotePair (nth k fs []) ->
  fieldText fs k = nth k fs [].
Proof.
  intros H1 H2. rewrite fieldText_trim.
  rewrite (replaceQuotePairs_fixed _ H2). apply trim_fixed, H1.
Qed.

Lemma lineRecord_entryLine (r : jsstring * jsstring) :
  cleanRecord r -> lineRecord (entryLine (entryOf r)) = r.
Proof.
  destruct r as [w d]. intros [[_ [Hw1 Hw2]] [_ [Hd1 Hd2]]].
  cbn [fst snd] in *. unfold lineRecord.
  rewrite (trim_fixed _ (entryLine_noOuterSpace w d Hw1 Hd1)).
  rewrite scannedFields_specTokens, specTokens_entryLine.
  rewrite (fieldText_clean [w; d] 0 Hw1 Hw2).
  rewrite (fieldText_clean [w; d] 1 Hd1 Hd2).
  reflexivity.
Qed.

Lemma notBlank_entryLine (r : jsstring * jsstring) :
  cleanRecord r -> notBlank (entryLine (entryOf r)) = true.
Proof.
  destruct r as [w d]. intros [[_ [Hw _]] [_ [Hd _]]].
  cbn [fst snd] in *. apply notBlank_true_iff.
  rewrite (trim_fixed _ (entryLine_noOuterSpace w d Hw Hd)).
  apply entryLine_not_nil.
Qed.

Lemma filter_all {A : Type} (f : A -> bool) (l : list A) :
  Forall (fun x => f x = true) l -> filter f l = l.
Proof.
  induction 1 as [|x l Hx _ IH]; simpl; [reflexivity|].
  rewrite Hx, IH. reflexivity.
Qed.

Lemma encoded_lines (records : list (jsstring * jsstring)) :
  Forall cleanRecord records ->
  Forall noLF (map entryLine (map entryOf records))
  /\ allNotBlank (map entryLine (map entryOf records))
  /\ map lineRecord (map entryLine (map entryOf records)) = records.
Proof.
  induction 1 as [|r records Hr _ [IH1 [IH2 IH3]]]; simpl.
  - repeat split; constructor.
  - split; [|split].
    + constructor; [|assumption]. destruct r as [w d].
      apply entryLine_noLF; apply Hr.
    + constructor; [|assumption]. apply notBlank_entryLine, Hr.
    + rewrite IH3, (lineRecord_entryLine r Hr). reflexivity.
Qed.

Lemma header_line (h : Host) :
  noLF header /\ notBlank header = true /\ isHeaderLine h header = true.
Proof.
  split; [absent | split; vm_compute; reflexivity].
Qed.

(** C1, as the code has it.  A sequence of Records whose fields hold no
    line feed, no leading or trailing whitespace and no two consecutive
    double-quotes (commas, single double-quotes, inner carriage returns and
    empty text are all allowed) is decoded from its encoding as it was,
    field for field and in order. *)
Theorem decode_encode (h : Host) (records : list (jsstring * jsstring)) :
  Forall cleanRecord records ->
  decode h (encode records) = records.
Proof.
  intros H. destruct (encoded_lines records H) as [H1 [H2 H3]].
  destruct (header_line h) as [Hh1 [Hh2 Hh3]].
  unfold decode, encode, wordsToCsv. cbv zeta.
  rewrite csvToWords_join_LF by (constructor; assumption).
  unfold wordsOfLines.
  rewrite filter_all by (constructor; assumption).
  cbn [dropHeader]. rewrite Hh3.
  rewrite <- H3 at 2.
  apply importLines_notBlank. assumption.
Qed.

Lemma decode_encode_witness :
  decode plainHost
    (encode [(lit "a,b", lit "he said " ++ [QUOTE] ++ lit "hi" ++ [QUOTE]);
             ([], []);
             (lit "x" ++ [CR] ++ lit "y", lit "word,definition")])
  = [(lit "a,b", lit "he said " ++ [QUOTE] ++ lit "hi" ++ [QUOTE]);
     ([], []);
     (lit "x" ++ [CR] ++ lit "y", lit "word,definition")].
Proof.
  apply (decode_encode plainHost
           [(lit "a,b", lit "he said " ++ [QUOTE] ++ lit "hi" ++ [QUOTE]);
            ([], []);
            (lit "x" ++ [CR] ++ lit "y", lit "word,definition")]).
  repeat constructor;
    first [ absent
          | vm_compute; reflexivity
          | unfold quotePair, QUOTE; vm_compute fst; vm_compute snd;
            no_occurrence ].
Defined.

(** Three records the decoder does not give back: leading whitespace is
    trimmed away, a line feed inside a field splits the record in two, and
    a field of two double-quotes comes back as one. *)
Lemma decode_encode_loses_text :
  (decode plainHost (encode [(lit " cat", lit "a small feline")])
   = [(lit "cat", lit "a small feline")]
   /\ decode plainHost (encode [(lit " cat", lit "a small feline")])
      <> [(lit " cat", lit "a small feline")])
  /\ (decode plainHost (encode [(lit "cat" ++ [LF] ++ lit "dog", lit "pets")])
      = [(lit "cat", []); (lit "dog,pets", [])]
      /\ decode plainHost
           (encode [(lit "cat" ++ [LF] ++ lit "dog", lit "pets")])
         <> [(lit "cat" ++ [LF] ++ lit "dog", lit "pets")])
  /\ (decode plainHost (encode [([QUOTE; QUOTE], lit "empty")])
      = [([QUOTE], lit "empty")]
      /\ decode plainHost (encode [([QUOTE; QUOTE], lit "empty")])
         <> [([QUOTE; QUOTE], lit "empty")]).
Proof.
  repeat split; try (vm_compute; reflexivity); vm_compute; discriminate.
Qed.

(** * Further properties of the CSV helpers *)

(** ** The escaper loses nothing *)

Lemma replaceChar_double_inj (a : jsstring) :
  forall b,
    replaceChar QUOTE [QUOTE; QUOTE] a = replaceChar QUOTE [QUOTE; QUOTE] b ->
    a = b.
Proof.
  induction a as [|x a IH]; intros [|y b] E; [reflexivity | | |].
  - exfalso. simpl in E. destruct (y =? QUOTE); discriminate E.
  - exfalso. simpl in E. destruct (x =? QUOTE); discriminate E.
  - change (replaceChar QUOTE [QUOTE; QUOTE] (x :: a))
      with ((if x =? QUOTE then [QUOTE; QUOTE] else [x])
              ++ replaceChar QUOTE [QUOTE; QUOTE] a) in E.
    change (replaceChar QUOTE [QUOTE; QUOTE] (y :: b))
      with ((if y =? QUOTE then [QUOTE; QUOTE] else [y])
              ++ replaceChar QUOTE [QUOTE; QUOTE] b) in E.
    destruct (x =? QUOTE) eqn:Ex; destruct (y =? QUOTE) eqn:Ey;
      cbn [app] in E.
    + apply N.eqb_eq in Ex, Ey. subst x y. injection E as E.
      f_equal. apply IH, E.
    + exfalso. injection E as E1 _. apply N.eqb_neq in Ey. congruence.
    + exfalso. injection E as E1 _. apply N.eqb_neq in Ex. congruence.
    + injection E as E1 E. subst y. f_equal. apply IH, E.
Qed.

(** Two texts with the same escaped form are the same text. *)
Theorem escapeCsvField_injective (a b : jsstring) :
  escapeCsvField (Str a) = escapeCsvField (Str b) -> a = b.
Proof.
  destruct (needsQuoting_dec a) as [Ha|Ha];
    destruct (needsQuoting_dec b) as [Hb|Hb].
  - rewrite (escapeCsvField_quoted a Ha), (escapeCsvField_quoted b Hb).
    intros E. injection E as E. apply app_inv_tail in E.
    apply replaceChar_double_inj, E.
  - rewrite (escapeCsvField_quoted a Ha), (escapeCsvField_plain b Hb).
    intros E. exfalso. apply Hb. right; left. rewrite <- E. left. reflexivity.
  - rewrite (escapeCsvField_plain a Ha), (escapeCsvField_quoted b Hb).
    intros E. exfalso. apply Ha. right; left. rewrite E. left. reflexivity.
  - rewrite (escapeCsvField_plain a Ha), (escapeCsvField_plain b Hb). auto.
Qed.

Lemma escapeCsvField_injective_witness :
  lit "a,b" ++ [QUOTE] = [97; 44; 98; 34].
Proof.
  apply (escapeCsvField_injective (lit "a,b" ++ [QUOTE]) [97; 44; 98; 34]).
  vm_compute. reflexivity.
Defined.

(** ** The scan undoes the escaper *)

Lemma entryLine_text (e : Entry) :
  entryLine e
  = entryLine (entryOf (textOf (entry_word e), textOf (entry_definition e))).
Proof.
  unfold entryLine, entryOf. cbn [entry_word entry_definition fst snd].
  rewrite <- !escapeCsvField_text. reflexivity.
Qed.

(** ** Lines without double-quotes *)

Lemma join_snoc (sep : jsstring) (l : list jsstring) (x y : jsstring) :
  join sep ((l ++ [x]) ++ [y]) = join sep (l ++ [x]) ++ sep ++ y.
Proof.
  induction l as [|a l IH].
  - reflexivity.
  - change ((((a :: l) ++ [x]) ++ [y])) with (a :: ((l ++ [x]) ++ [y])).
    change ((a :: l) ++ [x]) with (a :: (l ++ [x])).
    rewrite !join_cons.
    destruct (l ++ [x]) as [|b r] eqn:E; [destruct l; discriminate E|].
    cbn [app flat_map]. rewrite flat_map_app. cbn [flat_map].
    rewrite app_nil_r, <- !app_assoc. reflexivity.
Qed.

Lemma join_last_app (sep : jsstring) (l : list jsstring) (x y : jsstring) :
  join sep (l ++ [x ++ y]) = join sep (l ++ [x]) ++ y.
Proof.
  induction l as [|a l IH].
  - reflexivity.
  - change ((a :: l) ++ [x ++ y]) with (a :: (l ++ [x ++ y])).
    change ((a :: l) ++ [x]) with (a :: (l ++ [x])).
    rewrite !join_cons, !flat_map_app. cbn [flat_map].
    rewrite !app_nil_r, <- !app_assoc. reflexivity.
Qed.

Lemma specTokens_unquoted (t : jsstring) :
  ~ In QUOTE t ->
  forall fs cur,
    join [COMMA] (specTokens fs cur false t) = join [COMMA] (fs ++ [cur]) ++ t.
Proof.
  induction t as [|c t IH]; intros H fs cur.
  - rewrite app_nil_r. reflexivity.
  - assert (Eq : (c =? QUOTE) = false)
      by (apply N.eqb_neq; intros ->; apply H; left; reflexivity).
    assert (Ht : ~ In QUOTE t) by (intros X; apply H; right; exact X).
    cbn [specTokens]. rewrite Eq. cbn [negb]. rewrite andb_true_r.
    destruct (c =? COMMA) eqn:Ec.
    + apply N.eqb_eq in Ec. subst c.
      rewrite (IH Ht), join_snoc, <- !app_assoc. reflexivity.
    + rewrite (IH Ht), join_last_app, <- app_assoc. reflexivity.
Qed.

(** ** Identifiers and timestamps of imported words *)

Lemma importLines_numbered (h : Host) (lines : list jsstring) :
  forall k0 k w,
    nth_error (filterBoolean (importLines h k0 lines)) k = Some w ->
    id w = randomUUID h (k0 + k) /\ createdAt w = isoNow h (k0 + k).
Proof.
  induction lines as [|l lines IH]; intros k0 k w E.
  - destruct k; discriminate E.
  - cbn [importLines] in E.
    destruct (parseTwoFieldCsvLine l) as [p|].
    + cbn [filterBoolean] in E. destruct k as [|k].
      * cbn [nth_error] in E. injection E as <-.
        rewrite Nat.add_0_r. split; reflexivity.
      * cbn [nth_error] in E. apply IH in E.
        rewrite Nat.add_succ_r. exact E.
    + cbn [filterBoolean] in E. apply IH, E.
Qed.

Lemma NoDup_map_nth {A B : Type} (f : A -> B) (g : nat -> B) (l : list A) :
  (forall i j, g i = g j -> i = j) ->
  (forall k x, nth_error l k = Some x -> f x = g k) ->
  NoDup (map f l).
Proof.
  intros Hg H. apply (NoDup_nth_error (map f l)).
  intros i j Hi E. rewrite length_map in Hi.
  destruct (nth_error l i) as [x|] eqn:Ei;
    [|apply nth_error_None in Ei; lia].
  rewrite !nth_error_map, Ei in E. cbn [option_map] in E.
  destruct (nth_error l j) as [y|] eqn:Ej; [|discriminate E].
  cbn [option_map] in E. injection E as E.
  apply Hg. rewrite <- (H i x Ei), <- (H j y Ej). exact E.
Qed.

(** The word object at position [k] of an import carries the result of the
    [k]-th call of [crypto.randomUUID] and of the [k]-th reading of the
    clock: no call is shared or skipped.  So when the browser never
    returns the same identifier twice, the imported words have pairwise
    different identifiers. *)
Theorem csvToWords_identifiers (h : Host) (csvString : jsstring) :
  (forall k w,
      nth_error (csvToWords h csvString) k = Some w ->
      id w = randomUUID h k /\ createdAt w = isoNow h k)
  /\ ((forall i j, randomUUID h i = randomUUID h j -> i = j) ->
      NoDup (map id (csvToWords h csvString))).
Proof.
  assert (H : forall k w,
             nth_error (csvToWords h csvString) k = Some w ->
             id w = randomUUID h k /\ createdAt w = isoNow h k).
  { intros k w E. unfold csvToWords in E.
    apply (importLines_numbered h _ 0%nat k w) in E. exact E. }
  split; [exact H|].
  intros Hinj. apply (NoDup_map_nth id (randomUUID h)); [exact Hinj|].
  intros k w E. apply H, E.
Qed.

Lemma repeat_inj {A : Type} (x : A) (i j : nat) :
  repeat x i = repeat x j -> i = j.
Proof.
  intros E. apply (f_equal (@length A)) in E.
  rewrite !repeat_length in E. exact E.
Qed.

Lemma csvToWords_identifiers_witness :
  NoDup (map id (csvToWords numberedHost
                   (lit "cat,a small feline" ++ [LF] ++ lit "dog,barks"))).
Proof.
  apply (proj2 (csvToWords_identifiers numberedHost
                  (lit "cat,a small feline" ++ [LF] ++ lit "dog,barks"))).
  intros i j. simpl. apply repeat_inj.
Defined.

(** ** What an import makes of an export *)

Lemma allSpace_not_In (c : N) (ws : jsstring) :
  isWhiteSpace c = false -> allSpace ws -> ~ In c ws.
Proof.
  intros Hc H X. unfold allSpace in H. rewrite Forall_forall in H.
  apply H in X. congruence.
Qed.

Lemma trim_not_nil (c : N) (s : jsstring) :
  In c s -> isWhiteSpace c = false -> trim s <> [].
Proof.
  intros Hin Hc E. destruct (trim_split s) as [w1 [w2 [Es [H1 H2]]]].
  rewrite E in Es. cbn [app] in Es. rewrite Es in Hin.
  apply in_app_or in Hin. destruct Hin as [X|X];
    [exact (allSpace_not_In c w1 Hc H1 X) | exact (allSpace_not_In c w2 Hc H2 X)].
Qed.

Lemma trimStart_allSpace (ws s : jsstring) :
  allSpace ws -> trimStart (ws ++ s) = trimStart s.
Proof.
  induction 1 as [|c ws Hc _ IH]; [reflexivity|].
  cbn [app trimStart]. rewrite Hc. exact IH.
Qed.

Lemma trim_allSpace_l (ws s : jsstring) :
  allSpace ws -> trim (ws ++ s) = trim s.
Proof. intros H. unfold trim. rewrite (trimStart_allSpace ws s H). reflexivity. Qed.

Lemma trim_allSpace_r (ws s : jsstring) :
  allSpace ws -> trim (s ++ ws) = trim s.
Proof.
  intros H. induction ws as [|c ws IH] using rev_ind.
  - rewrite app_nil_r. reflexivity.
  - apply Forall_app in H. destruct H as [Hws Hc].
    rewrite app_assoc, trim_snoc_space; [apply IH, Hws|].
    inversion Hc; assumption.
Qed.

Lemma trimStart_before_comma (a b : jsstring) :
  trimStart (a ++ COMMA :: b) = trimStart a ++ COMMA :: b.
Proof.
  rewrite trimStart_app. destruct (trimStart a); reflexivity.
Qed.

Lemma trimEnd_after_comma (a b : jsstring) :
  trimEnd (a ++ COMMA :: b) = a ++ COMMA :: trimEnd b.
Proof.
  unfold trimEnd. rewrite rev_app_distr. cbn [rev]. rewrite <- app_assoc.
  cbn [app]. rewrite trimStart_before_comma, rev_app_distr. cbn [rev].
  rewrite rev_involutive, <- app_assoc. reflexivity.
Qed.

Lemma trim_entryLine (a b : jsstring) :
  trim (a ++ COMMA :: b) = trimStart a ++ COMMA :: trimEnd b.
Proof.
  unfold trim. rewrite trimStart_before_comma. apply trimEnd_after_comma.
Qed.

Lemma replaceQuotePairs_other (c : N) (r : jsstring) :
  c <> QUOTE -> replaceQuotePairs (c :: r) = c :: replaceQuotePairs r.
Proof.
  intros H. apply N.eqb_neq in H. destruct r as [|b r]; [reflexivity|].
  rewrite replaceQuotePairs_cons2, H. reflexivity.
Qed.

Lemma replaceQuotePairs_unquoted (s : jsstring) :
  ~ In QUOTE s -> replaceQuotePairs s = s.
Proof.
  induction s as [|c s IH]; intros H; [reflexivity|].
  rewrite replaceQuotePairs_other by (intros ->; apply H; left; reflexivity).
  rewrite IH by (intros X; apply H; right; exact X). reflexivity.
Qed.

Lemma replaceQuotePairs_app_l (ws s : jsstring) :
  ~ In QUOTE ws -> replaceQuotePairs (ws ++ s) = ws ++ replaceQuotePairs s.
Proof.
  induction ws as [|c ws IH]; intros H; [reflexivity|].
  cbn [app].
  rewrite replaceQuotePairs_other by (intros ->; apply H; left; reflexivity).
  rewrite IH by (intros X; apply H; right; exact X). reflexivity.
Qed.

Lemma replaceQuotePairs_app_r (ws : jsstring) :
  ~ In QUOTE ws ->
  forall s, replaceQuotePairs (s ++ ws) = replaceQuotePairs s ++ ws.
Proof.
  intros H s. induction s as [| a | a b r IHr IHb] using list_pair_ind.
  - apply replaceQuotePairs_unquoted, H.
  - destruct ws as [|c ws]; [reflexivity|].
    change ([a] ++ c :: ws) with (a :: c :: ws).
    rewrite replaceQuotePairs_cons2.
    assert (Ec : (c =? QUOTE) = false)
      by (apply N.eqb_neq; intros ->; apply H; left; reflexivity).
    rewrite Ec, andb_false_r, (replaceQuotePairs_unquoted _ H). reflexivity.
  - change ((a :: b :: r) ++ ws) with (a :: b :: (r ++ ws)).
    rewrite !replaceQuotePairs_cons2.
    destruct ((a =? QUOTE) && (b =? QUOTE)).
    + rewrite IHr. reflexivity.
    + change (b :: (r ++ ws)) with ((b :: r) ++ ws). rewrite IHb. reflexivity.
Qed.

Lemma normalField_space_l (ws s : jsstring) :
  allSpace ws -> normalField (ws ++ s) = normalField s.
Proof.
  intros H. unfold normalField.
  rewrite replaceQuotePairs_app_l
    by (apply allSpace_not_In; [reflexivity | exact H]).
  apply trim_allSpace_l, H.
Qed.

Lemma normalField_space_r (ws s : jsstring) :
  allSpace ws -> normalField (s ++ ws) = normalField s.
Proof.
  intros H. unfold normalField.
  rewrite replaceQuotePairs_app_r
    by (apply allSpace_not_In; [reflexivity | exact H]).
  apply trim_allSpace_r, H.
Qed.

Lemma trimEnd_snoc_clean (x : jsstring) (c : N) :
  isWhiteSpace c = false -> trimEnd (x ++ [c]) = x ++ [c].
Proof.
  intros Hc. unfold trimEnd. rewrite rev_app_distr. cbn [rev app trimStart].
  rewrite Hc. cbn [rev]. rewrite rev_involutive. reflexivity.
Qed.

Lemma scan_trimStart_escaped (w : jsstring) :
  exists w',
    normalField w' = normalField w
    /\ forall fs cur rest,
        hd_error rest <> Some QUOTE ->
        specTokens fs cur false (trimStart (escapeCsvField (Str w)) ++ rest)
        = specTokens fs (cur ++ w') false rest.
Proof.
  destruct (needsQuoting_dec w) as [H|H].
  - exists w. split; [reflexivity|]. intros fs cur rest Hrest.
    rewrite <- (specTokens_field w fs cur rest Hrest).
    rewrite (escapeCsvField_quoted w H). reflexivity.
  - destruct (trimStart_split w) as [ws [E Hws]].
    exists (trimStart w). split.
    + rewrite E at 2. symmetry. apply normalField_space_l, Hws.
    + intros fs cur rest _. rewrite (escapeCsvField_plain w H).
      apply specTokens_plain; intros X; apply H; rewrite E;
        [right; left | left]; apply in_or_app; right; exact X.
Qed.

Lemma scan_trimEnd_escaped (d : jsstring) :
  exists d',
    normalField d' = normalField d
    /\ forall fs cur,
        specTokens fs cur false (trimEnd (escapeCsvField (Str d)))
        = fs ++ [cur ++ d'].
Proof.
  destruct (needsQuoting_dec d) as [H|H].
  - exists d. split; [reflexivity|]. intros fs cur.
    assert (E : trimEnd (escapeCsvField (Str d)) = escapeCsvField (Str d)).
    { rewrite (escapeCsvField_quoted d H).
      change (QUOTE :: replaceChar QUOTE [QUOTE; QUOTE] d ++ [QUOTE])
        with ((QUOTE :: replaceChar QUOTE [QUOTE; QUOTE] d) ++ [QUOTE]).
      apply trimEnd_snoc_clean. reflexivity. }
    rewrite E, <- (app_nil_r (escapeCsvField (Str d))).
    rewrite specTokens_field by discriminate. reflexivity.
  - destruct (trimEnd_split d) as [ws [E Hws]].
    exists (trimEnd d). split.
    + rewrite E at 2. symmetry. apply normalField_space_r, Hws.
    + intros fs cur. rewrite (escapeCsvField_plain d H).
      rewrite <- (app_nil_r (trimEnd d)).
      rewrite specTokens_plain; [rewrite app_nil_r; reflexivity | |];
        intros X; apply H; rewrite E;
        [right; left | left]; apply in_or_app; left; exact X.
Qed.

Lemma lineRecord_entryLine_normal (w d : jsstring) :
  lineRecord (entryLine (entryOf (w, d))) = (normalField w, normalField d).
Proof.
  unfold lineRecord, entryLine, entryOf.
  cbn [entry_word entry_definition fst snd]. cbn [app].
  rewrite trim_entryLine, scannedFields_specTokens.
  destruct (scan_trimStart_escaped w) as [w' [Ew Hw]].
  destruct (scan_trimEnd_escaped d) as [d' [Ed Hd]].
  rewrite Hw by discriminate.
  cbn [app specTokens]. change (COMMA =? QUOTE) with false.
  change (COMMA =? COMMA) with true. cbn [andb negb]. cbv iota.
  rewrite Hd. cbn [app].
  rewrite !fieldText_trim. cbn [nth].
  fold (normalField w'). fold (normalField d'). rewrite Ew, Ed. reflexivity.
Qed.

Lemma notBlank_entryLine_any (e : Entry) : notBlank (entryLine e) = true.
Proof.
  apply notBlank_true_iff. apply (trim_not_nil COMMA); [|reflexivity].
  unfold entryLine. apply in_or_app. right. left. reflexivity.
Qed.

Lemma csvToWords_wordsToCsv_records (h : Host) (wordsArray : list Entry) :
  Forall (fun e => noLF (textOf (entry_word e))
                   /\ noLF (textOf (entry_definition e))) wordsArray ->
  map recordOf (csvToWords h (wordsToCsv wordsArray))
  = map (fun e => (normalField (textOf (entry_word e)),
                   normalField (textOf (entry_definition e)))) wordsArray.
Proof.
  intros H. destruct (header_line h) as [Hh1 [Hh2 Hh3]].
  assert (Hlf : Forall noLF (map entryLine wordsArray)).
  { apply Forall_map. revert H. apply Forall_impl. intros e [Hw Hd].
    rewrite entryLine_text. apply entryLine_noLF; assumption. }
  assert (Hnb : allNotBlank (map entryLine wordsArray)).
  { apply Forall_map, Forall_forall. intros e _.
    apply notBlank_entryLine_any. }
  unfold wordsToCsv. cbv zeta.
  rewrite csvToWords_join_LF by (constructor; assumption).
  unfold wordsOfLines.
  rewrite filter_all by (constructor; assumption).
  cbn [dropHeader]. rewrite Hh3.
  destruct (importLines_notBlank h _ Hnb 0%nat) as [_ ->].
  rewrite map_map. apply map_ext. intros e.
  rewrite entryLine_text. apply lineRecord_entryLine_normal.
Qed.

(** Whenever no field holds a line feed, importing what was exported gives
    one record per entry, in order, each field being the exported text
    with its pairs of double-quotes replaced by one and then trimmed;
    nothing else is changed, whatever commas, double-quotes or carriage
    returns the texts hold. *)
Theorem decode_encode_normalizes (h : Host) (wordsArray : list Entry) :
  Forall (fun e => noLF (textOf (entry_word e))
                   /\ noLF (textOf (entry_definition e))) wordsArray ->
  length (csvToWords h (wordsToCsv wordsArray)) = length wordsArray
  /\ map recordOf (csvToWords h (wordsToCsv wordsArray))
     = map (fun e => (normalField (textOf (entry_word e)),
                      normalField (textOf (entry_definition e)))) wordsArray.
Proof.
  intros H. pose proof (csvToWords_wordsToCsv_records h wordsArray H) as E.
  split; [|exact E].
  apply (f_equal (@length _)) in E. rewrite !length_map in E. exact E.
Qed.

Lemma decode_encode_normalizes_witness :
  map recordOf
    (csvToWords plainHost
       (wordsToCsv [ {| entry_word := Str (lit " cat ");
                        entry_definition := Str [QUOTE; QUOTE; QUOTE; QUOTE] |};
                     {| entry_word := Null;
                        entry_definition := Str (lit "a, b" ++ [CR]) |} ]))
  = [ (normalField (lit " cat "), normalField [QUOTE; QUOTE; QUOTE; QUOTE]);
      (normalField [], normalField (lit "a, b" ++ [CR])) ].
Proof.
  refine (proj2 (decode_encode_normalizes plainHost
           [ {| entry_word := Str (lit " cat ");
                entry_definition := Str [QUOTE; QUOTE; QUOTE; QUOTE] |};
             {| entry_word := Null;
                entry_definition := Str (lit "a, b" ++ [CR]) |} ] _)).
  repeat constructor; absent.
Defined.

(** ** An import never holds fewer records than the export *)

Lemma physicalLines_not_nil (s : jsstring) : physicalLines s <> [].
Proof.
  induction s as [|c s IH]; [discriminate|]. cbn [physicalLines].
  destruct (c =? LF); [discriminate|].
  destruct (physicalLines s); discriminate.
Qed.

Lemma physicalLines_noLF (s : jsstring) : Forall noLF (physicalLines s).
Proof.
  induction s as [|c s IH]; [repeat constructor; intros []|].
  cbn [physicalLines]. destruct (c =? LF) eqn:Ec.
  - constructor; [intros [] | exact IH].
  - apply N.eqb_neq in Ec. destruct (physicalLines s) as [|l rest].
    + repeat constructor. intros [X|[]]. congruence.
    + inversion IH as [|? ? Hl Hrest]; subst. constructor; [|exact Hrest].
      intros [X|X]; [congruence | exact (Hl X)].
Qed.

Lemma join_physicalLines (s : jsstring) : join [LF] (physicalLines s) = s.
Proof.
  induction s as [|c s IH]; [reflexivity|].
  cbn [physicalLines]. destruct (c =? LF) eqn:Ec.
  - apply N.eqb_eq in Ec. subst c.
    pose proof (physicalLines_not_nil s) as Hne.
    destruct (physicalLines s) as [|l rest]; [congruence|].
    change (join [LF] ([] :: l :: rest)) with (LF :: join [LF] (l :: rest)).
    rewrite IH. reflexivity.
  - pose proof (physicalLines_not_nil s) as Hne.
    destruct (physicalLines s) as [|l rest]; [congruence|].
    rewrite join_cons in *. rewrite <- IH. reflexivity.
Qed.

Lemma physicalLines_In (c : N) (s : jsstring) :
  In c s -> c <> LF -> exists l, In l (physicalLines s) /\ In c l.
Proof.
  intros Hin Hc. induction s as [|x s IH]; [destruct Hin|].
  cbn [physicalLines]. destruct (x =? LF) eqn:Ex.
  - apply N.eqb_eq in Ex. subst x.
    destruct Hin as [E|Hin]; [congruence|].
    destruct (IH Hin) as [l [Hl Hcl]]. exists l. split; [right|]; assumption.
  - pose proof (physicalLines_not_nil s) as Hne.
    destruct (physicalLines s) as [|l rest]; [congruence|].
    destruct Hin as [E|Hin].
    + subst x. exists (c :: l). split; left; reflexivity.
    + destruct (IH Hin) as [l' [[E|Hl'] Hcl]].
      * subst l'. exists (x :: l). split; [left; reflexivity | right; exact Hcl].
      * exists l'. split; [right|]; assumption.
Qed.

Lemma join_app (sep : jsstring) (l1 l2 : list jsstring) :
  l1 <> [] -> l2 <> [] ->
  join sep (l1 ++ l2) = join sep l1 ++ sep ++ join sep l2.
Proof.
  intros H1 H2. destruct l1 as [|a l1]; [congruence|].
  destruct l2 as [|b l2]; [congruence|].
  change ((a :: l1) ++ b :: l2) with (a :: (l1 ++ b :: l2)).
  rewrite !join_cons, flat_map_app. cbn [flat_map].
  rewrite <- !app_assoc. reflexivity.
Qed.

Lemma join_flat_map {A : Type} (sep : jsstring) (f : A -> list jsstring)
  (xs : list A) :
  (forall x, f x <> []) ->
  join sep (flat_map f xs) = join sep (map (fun x => join sep (f x)) xs).
Proof.
  intros Hf. induction xs as [|x xs IH]; [reflexivity|].
  cbn [flat_map map]. destruct xs as [|y xs].
  - cbn [flat_map map]. rewrite app_nil_r. reflexivity.
  - rewrite join_app.
    + rewrite IH. reflexivity.
    + apply Hf.
    + cbn [flat_map]. intros E. apply app_eq_nil in E.
      destruct E as [E _]. exact (Hf y E).
Qed.

Lemma wordsToCsv_physicalLines (wordsArray : list Entry) :
  wordsToCsv wordsArray
  = join [LF]
      (header :: flat_map physicalLines (map entryLine wordsArray)).
Proof.
  unfold wordsToCsv. cbv zeta.
  change (header :: flat_map physicalLines (map entryLine wordsArray))
    with (flat_map physicalLines (header :: map entryLine wordsArray)).
  rewrite (join_flat_map [LF] physicalLines _ physicalLines_not_nil).
  f_equal. symmetry. rewrite <- (map_id (header :: map entryLine wordsArray)) at 2.
  apply map_ext. intros s. apply join_physicalLines.
Qed.

Lemma entryLine_has_line (e : Entry) :
  (1 <= length (filter notBlank (physicalLines (entryLine e))))%nat.
Proof.
  destruct (physicalLines_In COMMA (entryLine e)) as [l [Hl Hc]].
  - unfold entryLine. apply in_or_app. right. left. reflexivity.
  - discriminate.
  - assert (Hin : In l (filter notBlank (physicalLines (entryLine e)))).
    { apply filter_In. split; [exact Hl|]. apply notBlank_true_iff.
      apply (trim_not_nil COMMA); [exact Hc | reflexivity]. }
    destruct (filter notBlank (physicalLines (entryLine e)));
      [destruct Hin | simpl; lia].
Qed.

Lemma entryLines_counted (wordsArray : list Entry) :
  (length wordsArray
   <= length (filter notBlank
                (flat_map physicalLines (map entryLine wordsArray))))%nat.
Proof.
  induction wordsArray as [|e es IH]; [apply Nat.le_0_l|].
  cbn [map flat_map length]. rewrite filter_app, length_app.
  pose proof (entryLine_has_line e). lia.
Qed.

Lemma export_import_length (h : Host) (wordsArray : list Entry) :
  (length wordsArray <= length (csvToWords h (wordsToCsv wordsArray)))%nat.
Proof.
  destruct (header_line h) as [Hh1 [Hh2 Hh3]].
  rewrite wordsToCsv_physicalLines.
  rewrite csvToWords_join_LF.
  - unfold wordsOfLines. cbn [filter]. rewrite Hh2. cbn [dropHeader].
    rewrite Hh3.
    pose proof (importLines_notBlank h _
                  (filter_allNotBlank
                     (flat_map physicalLines (map entryLine wordsArray)))
                  0%nat) as [HF _].
    rewrite <- (Forall2_length HF). apply entryLines_counted.
  - constructor; [exact Hh1|].
    apply Forall_flat_map, Forall_forall. intros s _.
    apply physicalLines_noLF.
Qed.

(** Whatever the entries hold, importing the export of [n] entries gives
    at least [n] word objects (a line feed inside a field adds records, it
    never removes one); so the import of a non-empty export is never
    empty. *)
Theorem csvToWords_wordsToCsv_length (h : Host) (wordsArray : list Entry) :
  (length wordsArray <= length (csvToWords h (wordsToCsv wordsArray)))%nat
  /\ (wordsArray <> [] -> csvToWords h (wordsToCsv wordsArray) <> []).
Proof.
  pose proof (export_import_length h wordsArray) as H. split; [exact H|].
  intros Hne E. rewrite E in H. destruct wordsArray; [congruence|].
  simpl in H. lia.
Qed.

(** * The application *)

(** ** What the handlers keep true *)

Lemma renderWords_fields (st : App) :
  words (renderWords st) = words st
  /\ storedWords (renderWords st) = storedWords st
  /\ currentRandomWord (renderWords st) = None
  /\ wordListNodes (renderWords st) = renderList (words st)
  /\ randomNodes (renderWords st) = [].
Proof.
  unfold renderWords, renderList. cbn.
  destruct (length (words st) =? 0)%nat; cbn; auto.
Qed.

Lemma renderWords_consistent (st : App) :
  storageInSync st -> consistent (renderWords st).
Proof.
  intros H. destruct (renderWords_fields st) as [Ew [Es [Ec [El Er]]]].
  unfold consistent, storageInSync, listShowsWords, revealIsReady.
  rewrite Ew, Es, El, Er. split; [exact H | split; [right; reflexivity|]].
  intros [].
Qed.

Lemma saved_consistent (ws : list Word) (st : App) :
  consistent (renderWords (saveWords (withWords ws st))).
Proof. apply renderWords_consistent. left. reflexivity. Qed.

Lemma startApp_consistent (stored : option (list Word)) :
  consistent (startApp stored).
Proof.
  unfold startApp. apply renderWords_consistent.
  unfold loadWords. cbn. destruct stored as [ws|].
  - left. reflexivity.
  - right. split; reflexivity.
Qed.

Lemma handleShowRandom_consistent (k : nat) (st st' : App) :
  consistent st -> handleShowRandom k st = Some st' -> consistent st'.
Proof.
  intros [Hs [_ _]]. unfold handleShowRandom. cbn.
  destruct (length (words st) =? 0)%nat.
  - intros E. injection E as <-. split; [exact Hs | split; [left; reflexivity|]].
    intros [X|[]]. discriminate X.
  - destruct (nth_error (words st) k) as [w|] eqn:Ew; [|discriminate].
    intros E. injection E as <-.
    split; [exact Hs | split; [left; reflexivity|]].
    intros _. exists w. cbn. repeat split. exact (nth_error_In _ _ Ew).
Qed.

Lemma handleReveal_consistent (st st' : App) :
  consistent st -> handleReveal st = Some st' -> consistent st'.
Proof.
  intros [Hs [Hl _]]. unfold handleReveal.
  destruct (currentRandomWord st) as [w|]; [|discriminate].
  intros E. injection E as <-. split; [exact Hs | split; [exact Hl|]].
  intros X. cbn in X. apply filter_In in X. destruct X as [_ X].
  discriminate X.
Qed.

Lemma step_consistent (e : Event) (st st' : App) (out : list Output) :
  consistent st -> step e st = Some (st', out) -> consistent st'.
Proof.
  intros H E. destruct e as [w d | h | [i|] | h | h text | | | k |];
    cbn [step] in E.
  - injection E as <- _. exact H.
  - unfold handleAddWord in E.
    destruct (strEq (trim (wordInputValue st)) []
              || strEq (trim (definitionInputValue st)) []);
      injection E as <- _; [exact H|].
    exact (saved_consistent _ st).
  - injection E as <- _. exact (saved_consistent _ st).
  - injection E as <- _. exact H.
  - unfold handleExport in E.
    destruct (length (words st) =? 0)%nat; injection E as <- _; exact H.
  - unfold handleImportLoaded in E.
    destruct (length (csvToWords h text) =? 0)%nat;
      injection E as <- _; [exact H|].
    exact (saved_consistent _ st).
  - injection E as <- _. exact H.
  - injection E as <- _. apply renderWords_consistent, H.
  - destruct (handleShowRandom k st) as [st1|] eqn:E1; [|discriminate E].
    injection E as <- _. exact (handleShowRandom_consistent k st st1 H E1).
  - destruct (handleReveal st) as [st1|] eqn:E1; [|discriminate E].
    injection E as <- _. exact (handleReveal_consistent st st1 H E1).
Qed.

Lemma reachable_consistent (stored : option (list Word)) (st : App) :
  reachable stored st -> consistent st.
Proof.
  induction 1 as [|e st st' out _ IH _ E].
  - apply startApp_consistent.
  - exact (step_consistent e st st' out IH E).
Qed.

(** ** Reloading the page *)

(** In every state the page reaches, the item in [localStorage] is the
    array in memory: loading the page again from what is stored starts with
    the same words, shown in the same order. *)
Theorem reload_restores_words (stored : option (list Word)) (st : App) :
  reachable stored st ->
  words (startApp (storedWords st)) = words st
  /\ wordListNodes (startApp (storedWords st)) = renderList (words st).
Proof.
  intros H. apply reachable_consistent in H. destruct H as [Hs _].
  assert (E : words (startApp (storedWords st)) = words st).
  { unfold startApp.
    destruct (renderWords_fields
                (loadWords {| words := [];
                              currentRandomWord := None;
                              storedWords := storedWords st;
                              wordInputValue := [];
                              definitionInputValue := [];
                              importFileValue := [];
                              wordListNodes := [];
                              randomNodes := [] |})) as [-> _].
    unfold loadWords. cbn.
    destruct Hs as [-> | [-> ->]]; reflexivity. }
  split; [exact E|].
  unfold startApp at 1.
  destruct (renderWords_fields
              (loadWords {| words := [];
                            currentRandomWord := None;
                            storedWords := storedWords st;
                            wordInputValue := [];
                            definitionInputValue := [];
                            importFileValue := [];
                            wordListNodes := [];
                            randomNodes := [] |})) as [Ew [_ [_ [-> _]]]].
  unfold startApp in E. rewrite Ew in E. rewrite E. reflexivity.
Qed.

Lemma catPage_reachable : reachable None catPage.
Proof.
  apply (reachable_step None (SubmitAdd plainHost)
           (withInputs (lit " cat ") (lit "a small feline") (startApp None))
           catPage []).
  - apply (reachable_step None (Typed (lit " cat ") (lit "a small feline"))
             (startApp None) _ []).
    + apply reachable_start.
    + exact I.
    + reflexivity.
  - exact I.
  - reflexivity.
Qed.

Lemma catShown_reachable : reachable None catShown.
Proof.
  apply (reachable_step None (ClickRandom 0) catPage catShown []).
  - apply catPage_reachable.
  - right. vm_compute. lia.
  - reflexivity.
Qed.

Lemma reload_restores_words_witness :
  words (startApp (storedWords catPage)) = words catPage
  /\ wordListNodes (startApp (storedWords catPage))
     = renderList (words catPage).
Proof.
  apply (reload_restores_words None catPage). apply catPage_reachable.
Defined.

(** ** No handler throws *)

(** In every state the page reaches, every event the page can deliver is
    handled to the end: the random index always finds a word and the
    reveal button always finds [currentRandomWord] set. *)
Theorem handlers_never_throw (stored : option (list Word)) (st : App)
  (e : Event) :
  reachable stored st -> possible e st ->
  exists st' out, step e st = Some (st', out).
Proof.
  intros H Hp. apply reachable_consistent in H. destruct H as [_ [_ Hr]].
  destruct e as [w d | h | t | h | h text | | | k |]; cbn [step];
    try (match goal with
         | |- exists st' out, Some ?x = Some (st', out) =>
             exists (fst x), (snd x); destruct x; reflexivity
         end).
  - unfold handleShowRandom. cbn.
    destruct (words st) as [|w ws] eqn:Ew.
    + eexists; eexists; reflexivity.
    + cbn [length Nat.eqb]. cbn [possible] in Hp. rewrite Ew in Hp.
      destruct Hp as [Hp|Hp]; [discriminate Hp|].
      destruct (nth_error (w :: ws) k) as [x|] eqn:Ex.
      * eexists; eexists; reflexivity.
      * apply nth_error_None in Ex. lia.
  - destruct (Hr Hp) as [w [Ec _]]. unfold handleReveal. rewrite Ec.
    eexists; eexists; reflexivity.
Qed.

Lemma handlers_never_throw_witness :
  exists st' out, step ClickReveal catShown = Some (st', out).
Proof.
  apply (handlers_never_throw None catShown ClickReveal).
  - apply catShown_reachable.
  - vm_compute. right. left. reflexivity.
Defined.

(** While the reveal button is shown, the heading shows a word that is in
    the list, and a click on the button replaces the button by the
    definition of that same word. *)
Theorem reveal_shows_the_definition (stored : option (list Word)) (st : App) :
  reachable stored st -> In RevealButton (randomNodes st) ->
  exists w st',
    In w (words st)
    /\ randomNodes st = [WordHeading (word w); RevealButton]
    /\ handleReveal st = Some st'
    /\ randomNodes st' = [WordHeading (word w); DefinitionText (definition w)]
    /\ words st' = words st.
Proof.
  intros H Hb. apply reachable_consistent in H. destruct H as [_ [_ Hr]].
  destruct (Hr Hb) as [w [Ec [Hw En]]].
  unfold handleReveal. rewrite Ec. eexists w, _.
  split; [exact Hw | split; [exact En | split; [reflexivity|]]].
  cbn. rewrite En. split; reflexivity.
Qed.

Lemma reveal_shows_the_definition_witness :
  exists w st',
    In w (words catShown)
    /\ randomNodes catShown = [WordHeading (word w); RevealButton]
    /\ handleReveal catShown = Some st'
    /\ randomNodes st' = [WordHeading (word w); DefinitionText (definition w)]
    /\ words st' = words catShown.
Proof.
  apply (reveal_shows_the_definition None catShown).
  - apply catShown_reachable.
  - vm_compute. right. left. reflexivity.
Defined.

(** ** Deleting *)

Lemma strEq_false_iff (a b : jsstring) : strEq a b = false <-> a <> b.
Proof.
  rewrite <- strEq_true_iff. destruct (strEq a b); split; congruence.
Qed.

Lemma filter_out_one (a b : list Word) (w : Word) :
  NoDup (map id (a ++ w :: b)) ->
  filter (fun x => negb (strEq (id x) (id w))) (a ++ w :: b) = a ++ b.
Proof.
  intros H. rewrite map_app in H. cbn [map] in H.
  apply NoDup_remove_2 in H.
  assert (Hkeep : forall l, (forall x, In x l -> In (id x) (map id a ++ map id b)) ->
            incl l (a ++ b) ->
            filter (fun x => negb (strEq (id x) (id w))) l = l).
  { intros l Hl _. apply filter_all, Forall_forall. intros x Hx.
    apply negb_true_iff, strEq_false_iff. intros E. apply H.
    rewrite <- E. apply Hl, Hx. }
  rewrite filter_app. cbn [filter]. rewrite strEq_refl. cbn [negb].
  rewrite (Hkeep a), (Hkeep b); try reflexivity.
  - intros x Hx. apply in_or_app. right. apply in_map, Hx.
  - apply incl_appr, incl_refl.
  - intros x Hx. apply in_or_app. left. apply in_map, Hx.
  - apply incl_appl, incl_refl.
Qed.

(** In a list whose identifiers are all different, a click on a delete
    button that is shown removes exactly the word the button belongs to:
    the words before and after it stay, in order, and the shorter list is
    what is stored and shown. *)
Theorem delete_removes_the_word (stored : option (list Word)) (st : App)
  (dataId : jsstring) :
  reachable stored st ->
  possible (ClickList (DeleteBtn dataId)) st ->
  NoDup (map id (words st)) ->
  exists a w b,
    words st = a ++ w :: b
    /\ id w = dataId
    /\ words (handleListClick (DeleteBtn dataId) st) = a ++ b
    /\ storedWords (handleListClick (DeleteBtn dataId) st) = Some (a ++ b)
    /\ wordListNodes (handleListClick (DeleteBtn dataId) st)
       = renderList (a ++ b).
Proof.
  intros H [t [d Hin]] Hnd.
  apply reachable_consistent in H. destruct H as [_ [Hl _]].
  assert (Hw : exists w, In w (words st) /\ id w = dataId).
  { destruct Hl as [E|E]; rewrite E in Hin; [destruct Hin|].
    unfold renderList in Hin. destruct (length (words st) =? 0)%nat.
    - destruct Hin as [X|[]]. discriminate X.
    - apply in_map_iff in Hin. destruct Hin as [w [Ew Hw]].
      exists w. split; [exact Hw|]. unfold renderItem in Ew.
      injection Ew as _ _ Ei. exact Ei. }
  destruct Hw as [w [Hw Ei]].
  destruct (in_split _ _ Hw) as [a [b Eab]].
  exists a, w, b. split; [exact Eab | split; [exact Ei|]].
  unfold handleListClick.
  destruct (renderWords_fields
              (saveWords
                 (withWords
                    (filter (fun x => negb (strEq (id x) dataId)) (words st))
                    st))) as [Ew [Es [_ [En _]]]].
  rewrite Ew, Es, En. cbn [words storedWords saveWords withWords withStoredWords].
  rewrite Eab in Hnd |- *. rewrite <- Ei.
  rewrite (filter_out_one a b w Hnd). repeat split.
Qed.

(** ** Texts in the list are trimmed *)

Lemma csvToWords_trimmed (h : Host) (text : jsstring) :
  Forall trimmedWord (csvToWords h text).
Proof.
  apply Forall_forall. intros w Hw.
  pose proof (importLines_notBlank h _ (dataLines_allNotBlank h text) 0%nat)
    as [HF _].
  destruct (Forall2_In_r _ _ _ w HF Hw) as [line [_ E]].
  unfold parseTwoFieldCsvLine in E.
  destruct (length (trim line) =? 0)%nat; [discriminate E|].
  injection E as Ew Ed. unfold trimmedWord. rewrite <- Ew, <- Ed.
  split; apply fieldText_noOuterSpace.
Qed.

Lemma step_trimmed (e : Event) (st st' : App) (out : list Output) :
  Forall trimmedWord (words st) -> step e st = Some (st', out) ->
  Forall trimmedWord (words st').
Proof.
  intros H E. destruct e as [w d | h | [i|] | h | h text | | | k |];
    cbn [step] in E.
  - injection E as <- _. exact H.
  - unfold handleAddWord in E.
    destruct (strEq (trim (wordInputValue st)) []
              || strEq (trim (definitionInputValue st)) []);
      injection E as <- _; [exact H|].
    cbn [words withInputs]. rewrite (proj1 (renderWords_fields _)).
    cbn [words saveWords withWords withStoredWords].
    constructor; [|exact H]. split; apply trim_noOuterSpace.
  - injection E as <- _. unfold handleListClick.
    rewrite (proj1 (renderWords_fields _)).
    cbn [words saveWords withWords withStoredWords].
    apply Forall_filter, H.
  - injection E as <- _. exact H.
  - unfold handleExport in E.
    destruct (length (words st) =? 0)%nat; injection E as <- _; exact H.
  - unfold handleImportLoaded in E.
    destruct (length (csvToWords h text) =? 0)%nat;
      injection E as <- _; [exact H|].
    cbn [words withImportFileValue]. rewrite (proj1 (renderWords_fields _)).
    cbn [words saveWords withWords withStoredWords].
    apply csvToWords_trimmed.
  - injection E as <- _. exact H.
  - injection E as <- _. unfold handleListAll.
    rewrite (proj1 (renderWords_fields _)). exact H.
  - unfold handleShowRandom in E. cbn in E.
    destruct (length (words st) =? 0)%nat.
    + injection E as <- _. exact H.
    + destruct (nth_error (words st) k); [|discriminate E].
      injection E as <- _. exact H.
  - unfold handleReveal in E.
    destruct (currentRandomWord st); [|discriminate E].
    injection E as <- _. exact H.
Qed.

Lemma reachable_trimmed (stored : option (list Word)) (st : App) :
  (forall ws, stored = Some ws -> Forall trimmedWord ws) ->
  reachable stored st -> Forall trimmedWord (words st).
Proof.
  intros Hs. induction 1 as [|e st st' out _ IH _ E].
  - unfold startApp. rewrite (proj1 (renderWords_fields _)).
    unfold loadWords. cbn. destruct stored as [ws|]; [|constructor].
    cbn. apply Hs. reflexivity.
  - exact (step_trimmed e st st' out IH E).
Qed.

(** If the words found in [localStorage] at start have no whitespace
    around their word and their definition, then neither has any word of
    the list at any later time, whatever is typed, imported or deleted. *)
Theorem words_stay_trimmed (stored : option (list Word)) (st : App) :
  (forall ws, stored = Some ws -> Forall trimmedWord ws) ->
  reachable stored st ->
  forall w, In w (words st) ->
    noOuterSpace (word w) /\ noOuterSpace (definition w).
Proof.
  intros Hs H w Hw.
  pose proof (reachable_trimmed stored st Hs H) as HF.
  rewrite Forall_forall in HF. exact (HF w Hw).
Qed.

Lemma words_stay_trimmed_witness :
  noOuterSpace (lit "cat") /\ noOuterSpace (lit "a small feline").
Proof.
  apply (words_stay_trimmed None catPage
           (fun ws E => False_ind _ (eq_ind None
              (fun o => match o with None => True | Some _ => False end)
              I (Some ws) E))
           catPage_reachable
           {| id := lit "00000000-0000-4000-8000-000000000000";
              word := lit "cat";
              definition := lit "a small feline";
              createdAt := lit "2024-01-01T00:00:00.000Z" |}).
  left. reflexivity.
Defined.

(** ** Exporting, then importing the file *)

Lemma asEntry_text (ws : list Word) :
  Forall (fun e => noLF (textOf (entry_word e))
                   /\ noLF (textOf (entry_definition e))) (map asEntry ws)
  <-> Forall (fun w => noLF (word w) /\ noLF (definition w)) ws.
Proof. rewrite Forall_map. reflexivity. Qed.

Lemma handleExport_download (h : Host) (st : App) :
  words st <> [] ->
  handleExport h st
  = (st, [Download (lit "my_words_" ++ firstn 10 (isoNow h 0) ++ lit ".csv")
            (wordsToCsv (map asEntry (words st)))]).
Proof.
  intros H. unfold handleExport.
  destruct (words st); [congruence | reflexivity].
Qed.

Lemma handleImportLoaded_success (h : Host) (text : jsstring) (st : App) :
  csvToWords h text <> [] ->
  exists st',
    handleImportLoaded h text st
    = (st', [Alert (lit "Successfully imported "
                      ++ numberText (length (csvToWords h text))
                      ++ lit " words! Existing data has been replaced.")])
    /\ words st' = csvToWords h text
    /\ storedWords st' = Some (csvToWords h text)
    /\ wordListNodes st' = renderList (csvToWords h text).
Proof.
  intros H. unfold handleImportLoaded.
  destruct (csvToWords h text) as [|w ws] eqn:E; [congruence|].
  cbn [length Nat.eqb]. eexists. split; [reflexivity|].
  cbn [words storedWords wordListNodes withImportFileValue].
  destruct (renderWords_fields (saveWords (withWords (w :: ws) st)))
    as [-> [-> [_ [-> _]]]].
  repeat split.
Qed.

(** Exporting a non-empty list and importing the file that was offered
    never ends in the invalid-format error: the import succeeds and the new
    list, stored and shown, has at least as many words as the exported
    one. *)
Theorem export_is_importable (h h' : Host) (st : App) :
  words st <> [] ->
  exists fileName text st',
    handleExport h st = (st, [Download fileName text])
    /\ handleImportLoaded h' text st
       = (st', [Alert (lit "Successfully imported "
                         ++ numberText (length (words st'))
                         ++ lit " words! Existing data has been replaced.")])
    /\ (length (words st) <= length (words st'))%nat
    /\ storedWords st' = Some (words st')
    /\ wordListNodes st' = renderList (words st').
Proof.
  intros H.
  pose proof (export_import_length h' (map asEntry (words st))) as Hlen.
  rewrite length_map in Hlen.
  assert (Hne : csvToWords h' (wordsToCsv (map asEntry (words st))) <> []).
  { intros E. rewrite E in Hlen. destruct (words st); [congruence|].
    simpl in Hlen. lia. }
  destruct (handleImportLoaded_success h' _ st Hne) as [st' [E [Ew [Es El]]]].
  exists (lit "my_words_" ++ firstn 10 (isoNow h 0) ++ lit ".csv"),
    (wordsToCsv (map asEntry (words st))), st'.
  rewrite Ew. repeat split; try assumption.
  apply handleExport_download, H.
Qed.

Lemma export_is_importable_witness :
  exists fileName text st',
    handleExport plainHost catPage = (catPage, [Download fileName text])
    /\ handleImportLoaded numberedHost text catPage
       = (st', [Alert (lit "Successfully imported "
                         ++ numberText (length (words st'))
                         ++ lit " words! Existing data has been replaced.")])
    /\ (length (words catPage) <= length (words st'))%nat
    /\ storedWords st' = Some (words st')
    /\ wordListNodes st' = renderList (words st').
Proof.
  apply (export_is_importable plainHost numberedHost catPage).
  vm_compute. discriminate.
Defined.

Lemma normalField_fixed (s : jsstring) :
  noOuterSpace s -> ~ occursIn quotePair s -> normalField s = s.
Proof.
  intros H1 H2. unfold normalField.
  rewrite (replaceQuotePairs_fixed s H2). apply trim_fixed, H1.
Qed.

(** ** Adding a word *)

Lemma trim_nil_iff (s : jsstring) : trim s = [] <-> allSpace s.
Proof.
  split.
  - intros E. destruct (trim_split s) as [w1 [w2 [Es [H1 H2]]]].
    rewrite E in Es. rewrite Es. apply Forall_app. split; assumption.
  - intros H. unfold trim.
    rewrite <- (app_nil_r s), (trimStart_allSpace s [] H). reflexivity.
Qed.

Lemma strEq_nil_iff (s : jsstring) : strEq (trim s) [] = true <-> allSpace s.
Proof. rewrite strEq_true_iff. apply trim_nil_iff. Qed.

(** A submission is refused, with nothing changed, exactly when the word
    or the definition typed holds nothing but whitespace.  Otherwise the
    new word, with both texts trimmed, is put in front of the others, which
    stay as they were; the list is stored and shown again and the two
    inputs are cleared. *)
Theorem handleAddWord_spec (h : Host) (st : App) :
  (allSpace (wordInputValue st) \/ allSpace (definitionInputValue st) ->
   handleAddWord h st
   = (st, [Alert (lit "Word and Definition cannot be empty.")]))
  /\ (~ (allSpace (wordInputValue st) \/ allSpace (definitionInputValue st)) ->
      exists st',
        handleAddWord h st = (st', [])
        /\ words st'
           = {| id := randomUUID h 0;
                word := trim (wordInputValue st);
                definition := trim (definitionInputValue st);
                createdAt := isoNow h 0 |} :: words st
        /\ word (hd (Build_Word [] [] [] []) (words st')) <> []
        /\ definition (hd (Build_Word [] [] [] []) (words st')) <> []
        /\ storedWords st' = Some (words st')
        /\ wordListNodes st' = map renderItem (words st')
        /\ wordInputValue st' = [] /\ definitionInputValue st' = []).
Proof.
  unfold handleAddWord.
  destruct (strEq (trim (wordInputValue st)) []) eqn:Ew;
    destruct (strEq (trim (definitionInputValue st)) []) eqn:Ed;
    cbn [orb]; split; intros H;
    try reflexivity;
    try (exfalso; apply H;
         first [ left; apply strEq_nil_iff; exact Ew
               | right; apply strEq_nil_iff; exact Ed ]).
  - exfalso. destruct H as [H|H]; apply strEq_nil_iff in H; congruence.
  - eexists. split; [reflexivity|].
    cbn [words storedWords wordListNodes wordInputValue definitionInputValue
           withInputs].
    match goal with
    | |- context [renderWords ?x] =>
        destruct (renderWords_fields x) as [-> [-> [_ [-> _]]]]
    end.
    cbn [words saveWords withWords withStoredWords storedWords hd word
           definition].
    apply strEq_false_iff in Ew, Ed. repeat split; assumption.
Qed.

Lemma handleAddWord_spec_witness :
  handleAddWord plainHost
    (withInputs (lit "cat") (lit "  ") (startApp None))
  = (withInputs (lit "cat") (lit "  ") (startApp None),
     [Alert (lit "Word and Definition cannot be empty.")]).
Proof.
  apply (proj1 (handleAddWord_spec plainHost
                  (withInputs (lit "cat") (lit "  ") (startApp None)))).
  right. repeat constructor.
Defined.

(** ** Files that are refused *)

Lemma csvToWords_nil_iff (h : Host) (text : jsstring) :
  csvToWords h text = [] <-> dataLines h text = [].
Proof.
  pose proof (importLines_notBlank h _ (dataLines_allNotBlank h text) 0%nat)
    as [HF _].
  apply Forall2_length in HF. fold (csvToWords h text) in HF.
  split; intros E; rewrite E in HF.
  - destruct (dataLines h text); [reflexivity | discriminate HF].
  - destruct (csvToWords h text); [reflexivity | discriminate HF].
Qed.

(** ** The header in any letter case *)

Lemma lowerUnit_ascii (tbl : N -> jsstring) (c : N) :
  c < 128 -> lowerUnit tbl c = [asciiLower c].
Proof.
  intros H. unfold lowerUnit, asciiLower.
  destruct ((65 <=? c) && (c <=? 90)); [reflexivity|].
  apply N.ltb_lt in H. rewrite H. reflexivity.
Qed.

Lemma toLowerCase_ascii (tbl : N -> jsstring) (s : jsstring) :
  Forall (fun c => c < 128) s -> toLowerCase tbl s = map asciiLower s.
Proof.
  induction 1 as [|c s Hc _ IH]; [reflexivity|].
  unfold toLowerCase in *. cbn [flat_map map].
  rewrite (lowerUnit_ascii tbl c Hc), IH. reflexivity.
Qed.

Lemma asciiSpace_facts (c : N) :
  asciiSpace c -> c < 128 /\ asciiLower c = c /\ isWhiteSpace c = true.
Proof.
  intros [E|[E|[E|[E|[E|E]]]]]; subst c; repeat split; reflexivity.
Qed.

Lemma asciiLower_header_ascii (s : jsstring) :
  map asciiLower s = lit "word,definition" -> Forall (fun c => c < 128) s.
Proof.
  intros E. apply Forall_forall. intros c Hc.
  assert (Hl : In (asciiLower c) (lit "word,definition"))
    by (rewrite <- E; apply in_map, Hc).
  unfold asciiLower in *.
  destruct ((65 <=? c) && (c <=? 90)) eqn:Eu.
  - apply andb_true_iff in Eu. destruct Eu as [_ Eu].
    apply N.leb_le in Eu. lia.
  - vm_compute in Hl.
    repeat (destruct Hl as [Hl|Hl]; [subst c; reflexivity|]).
    destruct Hl.
Qed.

(** A first line that spells [word,definition] in any mix of upper and
    lower case, with any ASCII whitespace before and after it, is taken for
    the header, whatever the case tables of the browser say about other
    characters. *)
Theorem header_in_any_case (h : Host) (before line after : jsstring) :
  Forall asciiSpace before -> Forall asciiSpace after ->
  map asciiLower line = lit "word,definition" ->
  isHeaderLine h (before ++ line ++ after) = true.
Proof.
  intros Hb Ha El. unfold isHeaderLine.
  assert (Hsp : forall ws, Forall asciiSpace ws ->
            Forall (fun c => c < 128) ws /\ map asciiLower ws = ws
            /\ allSpace ws).
  { induction 1 as [|c ws Hc _ [IH1 [IH2 IH3]]].
    - repeat split; constructor.
    - destruct (asciiSpace_facts c Hc) as [H1 [H2 H3]].
      repeat split; [constructor; assumption | | constructor; assumption].
      cbn [map]. rewrite H2, IH2. reflexivity. }
  destruct (Hsp before Hb) as [Hb1 [Hb2 Hb3]].
  destruct (Hsp after Ha) as [Ha1 [Ha2 Ha3]].
  rewrite toLowerCase_ascii.
  - rewrite !map_app, Hb2, Ha2, El.
    rewrite trim_allSpace_l by exact Hb3.
    rewrite trim_allSpace_r by exact Ha3.
    vm_compute. reflexivity.
  - apply Forall_app. split; [exact Hb1|]. apply Forall_app.
    split; [apply asciiLower_header_ascii, El | exact Ha1].
Qed.

Lemma header_in_any_case_witness :
  isHeaderLine numberedHost
    (lit "  " ++ lit "Word,DEFINITION" ++ [9; 13]) = true.
Proof.
  apply (header_in_any_case numberedHost
           (lit "  ") (lit "Word,DEFINITION") [9; 13]).
  - repeat constructor; vm_compute; tauto.
  - repeat constructor; vm_compute; tauto.
  - vm_compute. reflexivity.
Defined.

(** * The decoder, line by line *)

Lemma specTokens_no_comma (t : jsstring) :
  ~ In COMMA t ->
  forall fs cur inq, exists cur', specTokens fs cur inq t = fs ++ [cur'].
Proof.
  induction t as [| a | a b r IHr IHb] using list_pair_ind; intros H fs cur inq.
  - exists cur. reflexivity.
  - assert (Ec : (a =? COMMA) = false)
      by (apply N.eqb_neq; intros ->; apply H; left; reflexivity).
    cbn [specTokens]. rewrite Ec. cbn [andb].
    destruct (a =? QUOTE); eexists; reflexivity.
  - assert (Ec : (a =? COMMA) = false)
      by (apply N.eqb_neq; intros ->; apply H; left; reflexivity).
    assert (Hb : ~ In COMMA (b :: r)) by (intros X; apply H; right; exact X).
    assert (Hr : ~ In COMMA r) by (intros X; apply Hb; right; exact X).
    cbn [specTokens]. rewrite Ec. cbn [andb].
    destruct (a =? QUOTE).
    + destruct (inq && (b =? QUOTE)); [apply IHr, Hr | apply IHb, Hb].
    + apply IHb, Hb.
Qed.

Lemma In_trim (c : N) (s : jsstring) : In c (trim s) -> In c s.
Proof.
  intros H. destruct (trim_split s) as [w1 [w2 [E _]]]. rewrite E.
  apply in_or_app. right. apply in_or_app. left. exact H.
Qed.

Lemma parse_without_comma (line : jsstring) :
  trim line <> [] -> ~ In COMMA line ->
  exists w, parseTwoFieldCsvLine line
            = Some {| parsed_word := w; parsed_definition := [] |}.
Proof.
  intros Hne Hc. unfold parseTwoFieldCsvLine.
  destruct (trim line) as [|c t] eqn:Et; [congruence|].
  cbn [length Nat.eqb]. rewrite scannedFields_specTokens.
  destruct (specTokens_no_comma (c :: t)) with (fs := @nil jsstring)
    (cur := @nil N) (inq := false) as [cur' E].
  - intros X. apply Hc. apply In_trim. rewrite Et. exact X.
  - rewrite E. eexists. reflexivity.
Qed.

Lemma wordsOfLines_records (h : Host) (lines : list jsstring) :
  Forall2 (fun l w => parseTwoFieldCsvLine l
                      = Some {| parsed_word := word w;
                                parsed_definition := definition w |})
          (dropHeader h (filter notBlank lines)) (wordsOfLines h lines)
  /\ map recordOf (wordsOfLines h lines)
     = map lineRecord (dropHeader h (filter notBlank lines)).
Proof.
  unfold wordsOfLines. apply importLines_notBlank.
  pose proof (filter_allNotBlank lines) as H.
  destruct (dropHeader_cases h (filter notBlank lines)) as [-> | ->];
    [assumption|].
  destruct (filter notBlank lines); [assumption|].
  simpl. inversion H; assumption.
Qed.

(** C8, as the code has it.  The decoder is a total function of the blob.
    The empty blob, the header-only blob and every blob whose only
    non-blank line passes the header test decode to the empty sequence.  A
    non-blank line without a comma, and more generally one whose scan has
    no second field, gives a record with an empty definition.  For a blob
    made of the physical lines [lines], the word objects returned are, one
    for one and in order, the parses of the non-blank lines, leaving out a
    first non-blank line that passes the header test and no other line. *)
Theorem csvToWords_total :
  (forall h : Host, csvToWords h [] = [])
  /\ (forall h : Host, csvToWords h (lit "word,definition") = [])
  /\ (forall (h : Host) (lines : list jsstring) (first : jsstring),
         Forall noLF lines ->
         filter notBlank lines = [first] ->
         trim (toLowerCase (caseTable h) first) = lit "word,definition" ->
         csvToWords h (join [LF] lines) = [])
  /\ (forall line : jsstring,
         trim line <> [] -> ~ In COMMA line ->
         exists w, parseTwoFieldCsvLine line
                   = Some {| parsed_word := w; parsed_definition := [] |})
  /\ (forall line : jsstring,
         trim line <> [] ->
         nth_error (scannedFields (trim line)) 1 = None ->
         exists w, parseTwoFieldCsvLine line
                   = Some {| parsed_word := w; parsed_definition := [] |})
  /\ (forall (h : Host) (lines kept : list jsstring),
         Forall noLF lines ->
         kept = match filter notBlank lines with
                | [] => []
                | first :: rest =>
                    if strEq (trim (toLowerCase (caseTable h) first))
                             (lit "word,definition")
                    then rest
                    else first :: rest
                end ->
         Forall2 (fun l w => parseTwoFieldCsvLine l
                             = Some {| parsed_word := word w;
                                       parsed_definition := definition w |})
                 kept (csvToWords h (join [LF] lines))
         /\ map recordOf (csvToWords h (join [LF] lines))
            = map lineRecord kept
         /\ length (csvToWords h (join [LF] lines)) = length kept).
Proof.
  split; [|split; [|split; [|split; [|split]]]].
  - intros h. reflexivity.
  - intros h. vm_compute. reflexivity.
  - intros h lines first Hlf E Hh.
    rewrite (csvToWords_join_LF h lines Hlf). unfold wordsOfLines.
    rewrite E. cbn [dropHeader].
    apply isHeaderLine_true_iff in Hh. rewrite Hh. reflexivity.
  - exact parse_without_comma.
  - intros line Hne Hnth. unfold parseTwoFieldCsvLine.
    destruct (trim line) as [|c t] eqn:Et; [congruence|].
    cbn [length Nat.eqb]. unfold fieldText at 2. rewrite Hnth.
    eexists. reflexivity.
  - intros h lines kept Hlf Ek.
    rewrite (csvToWords_join_LF h lines Hlf).
    assert (E : kept = dropHeader h (filter notBlank lines)).
    { rewrite Ek. destruct (filter notBlank lines); reflexivity. }
    rewrite E. destruct (wordsOfLines_records h lines) as [HF Hm].
    split; [exact HF | split; [exact Hm|]].
    symmetry. exact (Forall2_length HF).
Qed.

(** A blob of five physical lines: the header, a blank line, two data lines
    and a last line without a comma.  Three records come back. *)
Lemma csvToWords_total_witness :
  map recordOf
    (csvToWords plainHost
       (join [LF] [lit "word,definition"; lit "  "; lit "cat,a small feline";
                   lit "dog , barks"; lit "owl"]))
  = [(lit "cat", lit "a small feline"); (lit "dog", lit "barks");
     (lit "owl", [])].
Proof.
  refine (eq_trans
            (proj1 (proj2
               (proj2 (proj2 (proj2 (proj2 (proj2 csvToWords_total))))
                  plainHost
                  [lit "word,definition"; lit "  "; lit "cat,a small feline";
                   lit "dog , barks"; lit "owl"]
                  [lit "cat,a small feline"; lit "dog , barks"; lit "owl"]
                  _ _)))
            _).
  - repeat constructor; absent.
  - vm_compute. reflexivity.
  - vm_compute. reflexivity.
Defined.

(** The header and one data line: two non-blank lines, one record.  The
    header-only blob: one non-blank line, no record. *)
Lemma csvToWords_skips_header_line :
  (filter notBlank
     (splitLines (lit "word,definition" ++ [LF] ++ lit "cat,a small feline"))
   = [lit "word,definition"; lit "cat,a small feline"]
   /\ decode plainHost
        (lit "word,definition" ++ [LF] ++ lit "cat,a small feline")
      = [(lit "cat", lit "a small feline")])
  /\ (filter notBlank (splitLines (lit "word,definition"))
      = [lit "word,definition"]
      /\ decode plainHost (lit "word,definition") = []).
Proof.
  repeat split; vm_compute; reflexivity.
Qed.

(** * The scan of an exported line *)

Lemma needsQuotes_true_iff (s : jsstring) :
  needsQuotes s = true <-> needsQuoting s.
Proof. apply needsQuoting_includes. Qed.

Lemma scan_word (w : jsstring) (fs : list jsstring) (cur rest : jsstring) :
  hd_error rest <> Some QUOTE ->
  specTokens fs cur false (trimStart (escapeCsvField (Str w)) ++ rest)
  = specTokens fs (cur ++ scannedWord w) false rest.
Proof.
  intros Hrest. unfold scannedWord.
  destruct (needsQuoting_dec w) as [H|H].
  - rewrite (proj2 (needsQuotes_true_iff w) H).
    rewrite <- (specTokens_field w fs cur rest Hrest).
    rewrite (escapeCsvField_quoted w H). reflexivity.
  - assert (E : needsQuotes w = false)
      by (apply not_true_is_false; rewrite needsQuotes_true_iff; exact H).
    rewrite E, (escapeCsvField_plain w H).
    destruct (trimStart_split w) as [ws [Ew _]].
    apply specTokens_plain; intros X; apply H; rewrite Ew;
      [right; left | left]; apply in_or_app; right; exact X.
Qed.

Lemma scan_definition (d : jsstring) (fs : list jsstring) (cur : jsstring) :
  specTokens fs cur false (trimEnd (escapeCsvField (Str d)))
  = fs ++ [cur ++ scannedDefinition d].
Proof.
  unfold scannedDefinition. destruct (needsQuoting_dec d) as [H|H].
  - rewrite (proj2 (needsQuotes_true_iff d) H).
    assert (E : trimEnd (escapeCsvField (Str d)) = escapeCsvField (Str d)).
    { rewrite (escapeCsvField_quoted d H).
      change (QUOTE :: replaceChar QUOTE [QUOTE; QUOTE] d ++ [QUOTE])
        with ((QUOTE :: replaceChar QUOTE [QUOTE; QUOTE] d) ++ [QUOTE]).
      apply trimEnd_snoc_clean. reflexivity. }
    rewrite E, <- (app_nil_r (escapeCsvField (Str d))).
    rewrite specTokens_field by discriminate. reflexivity.
  - assert (E : needsQuotes d = false)
      by (apply not_true_is_false; rewrite needsQuotes_true_iff; exact H).
    rewrite E, (escapeCsvField_plain d H).
    destruct (trimEnd_split d) as [ws [Ed _]].
    rewrite <- (app_nil_r (trimEnd d)).
    rewrite specTokens_plain; [rewrite app_nil_r; reflexivity | |];
      intros X; apply H; rewrite Ed;
      [right; left | left]; apply in_or_app; left; exact X.
Qed.

Lemma scannedFields_trimmed_line (w d : jsstring) :
  scannedFields (trim (entryLine (entryOf (w, d))))
  = [scannedWord w; scannedDefinition d].
Proof.
  unfold entryLine, entryOf. cbn [entry_word entry_definition fst snd].
  cbn [app]. rewrite trim_entryLine, scannedFields_specTokens.
  rewrite scan_word by discriminate.
  cbn [app specTokens]. change (COMMA =? QUOTE) with false.
  change (COMMA =? COMMA) with true. cbn [andb negb]. cbv iota.
  rewrite scan_definition. reflexivity.
Qed.

(** For an entry whose texts hold no line feed, [csvToWords] splits the
    export of the entry into the header and the one line written for the
    entry, and the loop of the tokenizer, run on that line trimmed, finds
    exactly two fields: the word and the definition as they were when they
    were quoted (commas, double-quotes, carriage returns and whitespace
    kept), and otherwise the word without its leading whitespace and the
    definition without its trailing whitespace. *)
Theorem scannedFields_entryLine (e : Entry) :
  noLF (textOf (entry_word e)) -> noLF (textOf (entry_definition e)) ->
  splitLines (wordsToCsv [e]) = [lit "word,definition"; entryLine e]
  /\ scannedFields (trim (entryLine e))
     = [scannedWord (textOf (entry_word e));
        scannedDefinition (textOf (entry_definition e))].
Proof.
  intros Hw Hd. split.
  - unfold wordsToCsv. cbv zeta. cbn [map].
    rewrite splitLines_join_LF; [reflexivity|].
    constructor; [absent|]. constructor; [|constructor].
    rewrite entryLine_text. apply entryLine_noLF; assumption.
  - rewrite entryLine_text. apply scannedFields_trimmed_line.
Qed.

Lemma scannedFields_entryLine_witness :
  scannedFields
    (trim (entryLine {| entry_word := Str (lit " cat");
                        entry_definition := Str (lit " a, b ") |}))
  = [lit "cat"; lit " a, b "].
Proof.
  refine (eq_trans
            (proj2 (scannedFields_entryLine
                      {| entry_word := Str (lit " cat");
                         entry_definition := Str (lit " a, b ") |} _ _))
            _).
  - absent.
  - absent.
  - vm_compute. reflexivity.
Defined.

(** * Lines without double-quotes *)

Lemma specTokens_unquoted_fields (t : jsstring) :
  ~ In QUOTE t ->
  forall fs cur,
    Forall (fun f => ~ In COMMA f) fs -> ~ In COMMA cur ->
    Forall (fun f => ~ In COMMA f) (specTokens fs cur false t).
Proof.
  induction t as [|c t IH]; intros H fs cur Hfs Hcur.
  - cbn [specTokens]. apply Forall_app. split; [exact Hfs|].
    constructor; [exact Hcur | constructor].
  - assert (Eq : (c =? QUOTE) = false)
      by (apply N.eqb_neq; intros ->; apply H; left; reflexivity).
    assert (Ht : ~ In QUOTE t) by (intros X; apply H; right; exact X).
    cbn [specTokens]. rewrite Eq. cbn [negb]. rewrite andb_true_r.
    destruct (c =? COMMA) eqn:Ec.
    + apply (IH Ht); [|intros []]. apply Forall_app. split; [exact Hfs|].
      constructor; [exact Hcur | constructor].
    + apply (IH Ht); [exact Hfs|]. intros X. apply in_app_or in X.
      destruct X as [X|[X|[]]]; [exact (Hcur X)|].
      apply N.eqb_neq in Ec. congruence.
Qed.

(** On a line that holds no double-quote, the loop of the tokenizer, run
    on the line trimmed as [parseTwoFieldCsvLine] runs it, splits at every
    comma and drops no character: no field holds a comma, and the fields
    joined by commas are the trimmed line. *)
Theorem scannedFields_unquoted (line : jsstring) :
  ~ In QUOTE line ->
  Forall (fun f => ~ In COMMA f) (scannedFields (trim line))
  /\ join [COMMA] (scannedFields (trim line)) = trim line.
Proof.
  intros H.
  assert (Ht : ~ In QUOTE (trim line)) by (intros X; apply H, In_trim, X).
  rewrite scannedFields_specTokens. split.
  - apply (specTokens_unquoted_fields (trim line) Ht [] []);
      [constructor | intros []].
  - apply (specTokens_unquoted (trim line) Ht [] []).
Qed.

Lemma scannedFields_unquoted_witness :
  Forall (fun f => ~ In COMMA f) (scannedFields (trim (lit " a, b,,c ")))
  /\ join [COMMA] (scannedFields (trim (lit " a, b,,c ")))
     = trim (lit " a, b,,c ").
Proof.
  apply (scannedFields_unquoted (lit " a, b,,c ")). absent.
Defined.

(** * Deleting one of several words *)

Lemma threeWords_reachable : reachable None threeWords.
Proof.
  apply (reachable_step None
           (FileLoaded numberedHost
              (lit "cat,a small feline" ++ [LF] ++ lit "dog,barks" ++ [LF]
                 ++ lit "owl,hoots"))
           (startApp None) threeWords
           (snd (handleImportLoaded numberedHost
                   (lit "cat,a small feline" ++ [LF] ++ lit "dog,barks"
                      ++ [LF] ++ lit "owl,hoots")
                   (startApp None)))).
  - apply reachable_start.
  - exact I.
  - reflexivity.
Qed.

(** The middle one of three words is deleted: the first and the third
    stay, in that order. *)
Lemma delete_removes_the_word_witness :
  (exists a w b,
      words threeWords = a ++ w :: b
      /\ id w = [120]
      /\ words (handleListClick (DeleteBtn [120]) threeWords) = a ++ b
      /\ storedWords (handleListClick (DeleteBtn [120]) threeWords)
         = Some (a ++ b)
      /\ wordListNodes (handleListClick (DeleteBtn [120]) threeWords)
         = renderList (a ++ b))
  /\ map recordOf (words threeWords)
     = [(lit "cat", lit "a small feline"); (lit "dog", lit "barks");
        (lit "owl", lit "hoots")]
  /\ map recordOf (words (handleListClick (DeleteBtn [120]) threeWords))
     = [(lit "cat", lit "a small feline"); (lit "owl", lit "hoots")].
Proof.
  split; [|split; vm_compute; reflexivity].
  apply (delete_removes_the_word None threeWords [120]).
  - apply threeWords_reachable.
  - exists (lit "dog"), (lit "barks"). right. left. reflexivity.
  - vm_compute. repeat constructor.
    + intros [X|[X|[]]]; discriminate X.
    + intros [X|[]]. discriminate X.
    + intros [].
Defined.

(** * Files that are refused, files that are taken *)

Lemma no_data_line_iff (h : Host) (text : jsstring) :
  (filter notBlank (splitLines text) = []
   \/ (exists l, filter notBlank (splitLines text) = [l]
                 /\ isHeaderLine h l = true))
  <-> csvToWords h text = [].
Proof.
  rewrite csvToWords_nil_iff. unfold dataLines.
  destruct (filter notBlank (splitLines text)) as [|l r]; cbn [dropHeader].
  - split; [reflexivity | left; reflexivity].
  - destruct (isHeaderLine h l) eqn:El.
    + split.
      * intros [E|[l' [E _]]]; [discriminate E|]. injection E as _ E. exact E.
      * intros ->. right. exists l. split; [reflexivity | exact El].
    + split; [|discriminate].
      intros [E|[l' [E El']]]; [discriminate E|].
      injection E as -> _. congruence.
Qed.

(** An import is refused, leaving the list in memory, the stored item and
    what is shown untouched, exactly when the file holds no non-blank
    line, or a single one that passes the header test.  Every other file
    is taken: whatever the list held before, it becomes the word objects of
    the file, at least one, and that list is stored and shown and its
    length reported. *)
Theorem import_refused_iff (h : Host) (text : jsstring) (st : App) :
  ((filter notBlank (splitLines text) = []
    \/ (exists l, filter notBlank (splitLines text) = [l]
                  /\ isHeaderLine h l = true))
   <-> handleImportLoaded h text st
       = (withImportFileValue [] st,
          [Alert (lit "Error importing file: " ++ invalidCsvMessage)]))
  /\ (~ (filter notBlank (splitLines text) = []
         \/ (exists l, filter notBlank (splitLines text) = [l]
                       /\ isHeaderLine h l = true)) ->
      exists st',
        handleImportLoaded h text st
        = (st', [Alert (lit "Successfully imported "
                          ++ numberText (length (csvToWords h text))
                          ++ lit " words! Existing data has been replaced.")])
        /\ words st' = csvToWords h text
        /\ words st' <> []
        /\ storedWords st' = Some (csvToWords h text)
        /\ wordListNodes st' = map renderItem (csvToWords h text)
        /\ importFileValue st' = []).
Proof.
  split.
  - rewrite no_data_line_iff. unfold handleImportLoaded.
    destruct (csvToWords h text) as [|w ws]; cbn [length Nat.eqb].
    + split; reflexivity.
    + split; [discriminate|]. intros E. exfalso.
      apply (f_equal snd) in E. cbn [snd] in E. vm_compute in E.
      discriminate E.
  - rewrite no_data_line_iff. intros Hne. unfold handleImportLoaded.
    destruct (csvToWords h text) as [|w ws] eqn:E; [congruence|].
    cbn [length Nat.eqb]. eexists. split; [reflexivity|].
    cbn [words storedWords wordListNodes importFileValue withImportFileValue].
    destruct (renderWords_fields (saveWords (withWords (w :: ws) st)))
      as [-> [-> [_ [-> _]]]].
    cbn [words saveWords withWords withStoredWords storedWords].
    repeat split. discriminate.
Qed.

(** A file of one data line replaces the three words of the list; a file
    that holds the header and a blank line is refused. *)
Lemma import_refused_iff_witness :
  (exists st',
      handleImportLoaded plainHost (lit "fox,red") threeWords
      = (st', [Alert (lit "Successfully imported "
                        ++ numberText
                             (length (csvToWords plainHost (lit "fox,red")))
                        ++ lit " words! Existing data has been replaced.")])
      /\ words st' = csvToWords plainHost (lit "fox,red")
      /\ words st' <> []
      /\ storedWords st' = Some (csvToWords plainHost (lit "fox,red"))
      /\ wordListNodes st'
         = map renderItem (csvToWords plainHost (lit "fox,red"))
      /\ importFileValue st' = [])
  /\ handleImportLoaded plainHost (lit "Word,Definition" ++ [LF; 32])
       threeWords
     = (withImportFileValue [] threeWords,
        [Alert (lit "Error importing file: " ++ invalidCsvMessage)]).
Proof.
  split.
  - apply (proj2 (import_refused_iff plainHost (lit "fox,red") threeWords)).
    intros [E|[l [E El]]]; vm_compute in E; [discriminate E|].
    injection E as <-. vm_compute in El. discriminate El.
  - apply (proj1 (proj1 (import_refused_iff plainHost
                           (lit "Word,Definition" ++ [LF; 32]) threeWords))).
    right. exists (lit "Word,Definition"). split; vm_compute; reflexivity.
Defined.

(** * Exporting, then importing the file that was written *)

Lemma toUSVString_cons2 (c d : N) (r : jsstring) :
  toUSVString (c :: d :: r)
  = if isHighSurrogate c then
      if isLowSurrogate d then c :: d :: toUSVString r
      else 65533 :: toUSVString (d :: r)
    else if isLowSurrogate c then 65533 :: toUSVString (d :: r)
    else c :: toUSVString (d :: r).
Proof. reflexivity. Qed.

Lemma toUSVString_other (c : N) (r : jsstring) :
  isHighSurrogate c = false -> isLowSurrogate c = false ->
  toUSVString (c :: r) = c :: toUSVString r.
Proof. intros H1 H2. cbn [toUSVString]. rewrite H1, H2. reflexivity. Qed.

Lemma replacement_not_surrogate (c : N) :
  c = 65533 -> isHighSurrogate c = false /\ isLowSurrogate c = false.
Proof. intros ->. split; reflexivity. Qed.

Lemma wellFormed_cases (c : N) (r : jsstring) :
  wellFormed (c :: r) ->
  (isHighSurrogate c = false /\ isLowSurrogate c = false /\ wellFormed r)
  \/ (isHighSurrogate c = true
      /\ exists d r', r = d :: r' /\ isLowSurrogate d = true /\ wellFormed r').
Proof.
  unfold wellFormed. destruct r as [|d r'].
  - cbn [toUSVString].
    destruct (isHighSurrogate c) eqn:Eh.
    + intros E. injection E as E.
      destruct (replacement_not_surrogate c (eq_sym E)). congruence.
    + destruct (isLowSurrogate c) eqn:El.
      * intros E. injection E as E.
        destruct (replacement_not_surrogate c (eq_sym E)). congruence.
      * intros _. left. repeat split.
  - rewrite toUSVString_cons2.
    destruct (isHighSurrogate c) eqn:Eh.
    + destruct (isLowSurrogate d) eqn:El.
      * intros E. injection E as E. right. split; [reflexivity|].
        exists d, r'. repeat split; assumption.
      * intros E. injection E as E _.
        destruct (replacement_not_surrogate c (eq_sym E)). congruence.
    + destruct (isLowSurrogate c) eqn:El.
      * intros E. injection E as E _.
        destruct (replacement_not_surrogate c (eq_sym E)). congruence.
      * intros E. injection E as E. left. repeat split. exact E.
Qed.

Lemma wellFormed_induction (P : jsstring -> Prop) :
  P [] ->
  (forall c r, isHighSurrogate c = false -> isLowSurrogate c = false ->
               wellFormed r -> P r -> P (c :: r)) ->
  (forall c d r, isHighSurrogate c = true -> isLowSurrogate d = true ->
                 wellFormed r -> P r -> P (c :: d :: r)) ->
  forall s, wellFormed s -> P s.
Proof.
  intros H0 H1 H2 s.
  induction s as [| a | a b r IHr IHb] using list_pair_ind; intros Hs.
  - exact H0.
  - destruct (wellFormed_cases a [] Hs) as [[Eh [El Hr]] | [_ [d [r' [E _]]]]];
      [|discriminate E].
    apply H1; auto.
  - destruct (wellFormed_cases a (b :: r) Hs)
      as [[Eh [El Hr]] | [Eh [d [r' [E [El Hr]]]]]].
    + apply H1; auto.
    + injection E as <- <-. apply H2; auto.
Qed.

Lemma toUSVString_app (a : jsstring) :
  wellFormed a -> forall b, toUSVString (a ++ b) = a ++ toUSVString b.
Proof.
  revert a.
  apply (wellFormed_induction
           (fun a => forall b, toUSVString (a ++ b) = a ++ toUSVString b)).
  - reflexivity.
  - intros c r Eh El _ IH b.
    cbn [app]. rewrite (toUSVString_other c _ Eh El), IH. reflexivity.
  - intros c d r Eh El _ IH b.
    cbn [app]. rewrite toUSVString_cons2, Eh, El, IH. reflexivity.
Qed.

Lemma wellFormed_app (a b : jsstring) :
  wellFormed a -> wellFormed b -> wellFormed (a ++ b).
Proof.
  intros Ha Hb. unfold wellFormed.
  rewrite (toUSVString_app a Ha), Hb. reflexivity.
Qed.

Lemma wellFormed_single (c : N) :
  isHighSurrogate c = false -> isLowSurrogate c = false -> wellFormed [c].
Proof. intros H1 H2. unfold wellFormed. cbn. rewrite H1, H2. reflexivity. Qed.

Lemma wellFormed_replaceChar (s : jsstring) :
  wellFormed s -> wellFormed (replaceChar QUOTE [QUOTE; QUOTE] s).
Proof.
  revert s.
  apply (wellFormed_induction
           (fun s => wellFormed (replaceChar QUOTE [QUOTE; QUOTE] s)));
    [reflexivity | intros c r Eh El _ IH | intros c d r Eh El _ IH].
  - change (replaceChar QUOTE [QUOTE; QUOTE] (c :: r))
      with ((if c =? QUOTE then [QUOTE; QUOTE] else [c])
              ++ replaceChar QUOTE [QUOTE; QUOTE] r).
    apply wellFormed_app; [|exact IH].
    destruct (c =? QUOTE); [reflexivity | apply wellFormed_single; assumption].
  - assert (Ec : (c =? QUOTE) = false)
      by (apply N.eqb_neq; intros ->; discriminate Eh).
    assert (Ed : (d =? QUOTE) = false)
      by (apply N.eqb_neq; intros ->; discriminate El).
    change (replaceChar QUOTE [QUOTE; QUOTE] (c :: d :: r))
      with ((if c =? QUOTE then [QUOTE; QUOTE] else [c])
              ++ (if d =? QUOTE then [QUOTE; QUOTE] else [d])
              ++ replaceChar QUOTE [QUOTE; QUOTE] r).
    rewrite Ec, Ed. cbn [app].
    change (c :: d :: replaceChar QUOTE [QUOTE; QUOTE] r)
      with ([c; d] ++ replaceChar QUOTE [QUOTE; QUOTE] r).
    apply wellFormed_app; [|exact IH].
    unfold wellFormed. rewrite toUSVString_cons2, Eh, El. reflexivity.
Qed.

Lemma wellFormed_escapeCsvField (s : jsstring) :
  wellFormed s -> wellFormed (escapeCsvField (Str s)).
Proof.
  intros Hs. destruct (needsQuoting_dec s) as [H|H].
  - rewrite (escapeCsvField_quoted s H).
    change (QUOTE :: replaceChar QUOTE [QUOTE; QUOTE] s ++ [QUOTE])
      with ([QUOTE] ++ replaceChar QUOTE [QUOTE; QUOTE] s ++ [QUOTE]).
    apply wellFormed_app; [reflexivity|].
    apply wellFormed_app; [apply wellFormed_replaceChar, Hs | reflexivity].
  - rewrite (escapeCsvField_plain s H). exact Hs.
Qed.

Lemma wellFormed_entryLine (w : Word) :
  wellFormedWord w -> wellFormed (entryLine (asEntry w)).
Proof.
  intros [Hw Hd]. unfold entryLine, asEntry.
  cbn [entry_word entry_definition].
  apply wellFormed_app; [apply wellFormed_escapeCsvField, Hw|].
  apply wellFormed_app; [reflexivity | apply wellFormed_escapeCsvField, Hd].
Qed.

Lemma fileText_wordsToCsv (ws : list Word) :
  Forall wellFormedWord ws ->
  fileText (wordsToCsv (map asEntry ws)) = wordsToCsv (map asEntry ws).
Proof.
  intros H. unfold wordsToCsv. cbv zeta. rewrite join_cons.
  assert (Hwf : wellFormed
                  (flat_map (fun l => [LF] ++ l) (map entryLine (map asEntry ws)))).
  { induction H as [|w ws Hw _ IH]; [reflexivity|].
    cbn [map flat_map]. apply wellFormed_app; [|exact IH].
    apply wellFormed_app; [reflexivity | apply wellFormed_entryLine, Hw]. }
  unfold fileText.
  assert (Hh : wellFormed header) by reflexivity.
  rewrite (toUSVString_app header Hh), Hwf. reflexivity.
Qed.

(** On a page started with nothing stored, if the list is not empty and
    no text of it holds a line feed, two consecutive double-quotes or a
    surrogate code unit without its partner, then exporting the list and
    importing the file that was written gives the same words and
    definitions back, in the same order; the new list is what is stored
    and shown. *)
Theorem export_then_import_restores (h h' : Host) (st : App) :
  reachable None st ->
  words st <> [] ->
  Forall plainWord (words st) ->
  Forall wellFormedWord (words st) ->
  exists fileName text st' message,
    handleExport h st = (st, [Download fileName text])
    /\ handleImportLoaded h' (fileText text) st = (st', [Alert message])
    /\ map recordOf (words st') = map recordOf (words st)
    /\ storedWords st' = Some (words st')
    /\ wordListNodes st' = renderList (words st').
Proof.
  intros Hr Hne Hp Hwf.
  assert (Ht : Forall trimmedWord (words st)).
  { apply (reachable_trimmed None st); [|exact Hr]. intros ws E. discriminate E. }
  pose proof (export_import_length h' (map asEntry (words st))) as Hlen.
  rewrite length_map in Hlen.
  assert (Hne' : csvToWords h' (wordsToCsv (map asEntry (words st))) <> []).
  { intros E. rewrite E in Hlen. destruct (words st); [congruence|].
    simpl in Hlen. lia. }
  destruct (handleImportLoaded_success h' _ st Hne') as [st' [E [Ew [Es El]]]].
  exists (lit "my_words_" ++ firstn 10 (isoNow h 0) ++ lit ".csv"),
    (wordsToCsv (map asEntry (words st))), st'. eexists.
  split; [apply handleExport_download, Hne|].
  rewrite (fileText_wordsToCsv (words st) Hwf).
  split; [exact E|].
  rewrite Ew. split; [|split; assumption].
  rewrite csvToWords_wordsToCsv_records.
  - rewrite map_map. apply map_ext_in. intros w Hw.
    rewrite Forall_forall in Ht, Hp.
    destruct (Ht w Hw) as [Tw Td]. destruct (Hp w Hw) as [_ [_ [Pw Pd]]].
    cbn [asEntry entry_word entry_definition textOf]. unfold recordOf.
    rewrite (normalField_fixed _ Tw Pw), (normalField_fixed _ Td Pd).
    reflexivity.
  - apply asEntry_text. revert Hp. apply Forall_impl.
    intros w [H1 [H2 _]]. split; assumption.
Qed.

Lemma smilePage_reachable : reachable None smilePage.
Proof.
  apply (reachable_step None (SubmitAdd plainHost)
           (withInputs [55357; 56832] (lit "a grin, a smile") (startApp None))
           smilePage []).
  - apply (reachable_step None
             (Typed [55357; 56832] (lit "a grin, a smile"))
             (startApp None) _ []).
    + apply reachable_start.
    + exact I.
    + reflexivity.
  - exact I.
  - reflexivity.
Qed.

Lemma export_then_import_restores_witness :
  exists fileName text st' message,
    handleExport plainHost smilePage = (smilePage, [Download fileName text])
    /\ handleImportLoaded numberedHost (fileText text) smilePage
       = (st', [Alert message])
    /\ map recordOf (words st') = map recordOf (words smilePage)
    /\ storedWords st' = Some (words st')
    /\ wordListNodes st' = renderList (words st').
Proof.
  apply (export_then_import_restores plainHost numberedHost smilePage).
  - apply smilePage_reachable.
  - vm_compute. discriminate.
  - repeat constructor;
      first [ absent
            | unfold quotePair, QUOTE; vm_compute word; vm_compute definition;
              no_occurrence ].
  - repeat constructor; vm_compute; reflexivity.
Defined.
